(** * The edge request gate of the AI Code Explainer worker

    A shallow embedding of [app/lib/middleware.ts] (body-size guard,
    fixed-window rate limiter, CORS policy, security headers) and of the
    worker entry point [workers/app.ts], followed by the properties of the
    gate that the specification states.

    Modelling conventions.
    - JavaScript strings are modelled as Rocq [string]s, i.e. sequences of
      8-bit characters; [toLowerCase] and the character classes of the
      regular expression act on the ASCII range.
    - The numbers the gate computes with are integers (counters, byte
      counts, millisecond time stamps) or NaN; they are modelled as [Z]
      inside [JsNumber].  The one fractional quantity, the value that
      [parseFloat] reads from a size string, is an exact rational; this
      agrees with IEEE doubles for literals of up to 15 significant
      digits.  Decimal printing of numbers is the plain digit string,
      which is what JavaScript prints below 1e21.
    - [Date.now()] and [Math.random()] are inputs: every call site gets
      its own reading, collected in the record [Oracle].
    - The [Map] held by the rate limiter is a [gmap] from client id to
      window record; the store is threaded through explicitly. *)

From Stdlib Require Import ZArith QArith Qround String Ascii DecimalString.
From stdpp Require Import gmap strings list fin_maps.

Open Scope string_scope.
Open Scope Z_scope.

(** ** JavaScript primitives used by the middleware *)

Module Js.

(** A number as the gate sees it: an integer or NaN. *)
Inductive JsNumber :=
| NaN
| Num (z : Z).

(** The outcome of a call that may [throw new Error(msg)]. *)
Inductive Result (A : Type) :=
| Ok (a : A)
| Throw (msg : string).
Arguments Ok {A} a.
Arguments Throw {A} msg.

Definition code (c : ascii) : Z := Z.of_N (N_of_ascii c).

Definition is_digit (c : ascii) : bool := (48 <=? code c) && (code c <=? 57).
Definition is_lower (c : ascii) : bool := (97 <=? code c) && (code c <=? 122).
Definition is_upper (c : ascii) : bool := (65 <=? code c) && (code c <=? 90).
(** [\s] and StrWhiteSpaceChar on the ASCII range: TAB, LF, VT, FF, CR, SP. *)
Definition is_space (c : ascii) : bool :=
  ((9 <=? code c) && (code c <=? 13)) || (code c =? 32).

Definition lower_char (c : ascii) : ascii :=
  if is_upper c then ascii_of_N (N_of_ascii c + 32) else c.

(** [String.prototype.toLowerCase]. *)
Fixpoint toLowerCase (s : string) : string :=
  match s with
  | EmptyString => EmptyString
  | String c s' => String (lower_char c) (toLowerCase s')
  end.

(** Longest prefix whose characters satisfy [p], and the rest. *)
Fixpoint span (p : ascii -> bool) (s : string) : string * string :=
  match s with
  | EmptyString => (EmptyString, EmptyString)
  | String c s' =>
      if p c then (String c (span p s').1, (span p s').2)
      else (EmptyString, s)
  end.

Definition is_empty (s : string) : bool :=
  match s with EmptyString => true | _ => false end.

(** A value is truthy in [if (s)] / [s || d] when it is a non-empty
    string; [null] (here [None]) and the empty string are falsy. *)
Definition truthy (o : option string) : bool :=
  match o with
  | Some s => negb (is_empty s)
  | None => false
  end.

(** [o || d] for an optional string [o]. *)
Definition or_default (o : option string) (d : string) : string :=
  match o with
  | Some s => if is_empty s then d else s
  | None => d
  end.

Definition digit_val (c : ascii) : Z := code c - 48.

(** Value of a string of decimal digits, most significant first. *)
Fixpoint digits_val (acc : Z) (s : string) : Z :=
  match s with
  | EmptyString => acc
  | String c s' => digits_val (10 * acc + digit_val c) s'
  end.

(** [parseInt(s, 10)]: skip leading white space, read an optional sign,
    then the longest run of decimal digits; NaN when that run is empty. *)
Definition parseInt10 (s : string) : JsNumber :=
  let s1 := (span is_space s).2 in
  let '(neg, s2) :=
    match s1 with
    | String c r =>
        if Ascii.eqb c "-" then (true, r)
        else if Ascii.eqb c "+" then (false, r)
        else (false, s1)
    | EmptyString => (false, s1)
    end in
  let ds := (span is_digit s2).1 in
  if is_empty ds then NaN
  else Num (if neg : bool then - digits_val 0 ds else digits_val 0 ds).

(** [parseFloat] on a literal of the shape [digits] or [digits.digits],
    which is all the size pattern lets through: the exact decimal value. *)
Definition parseFloat (s : string) : Q :=
  let '(ip, r) := span is_digit s in
  match r with
  | String c r' =>
      if Ascii.eqb c "." then
        let fp := (span is_digit r').1 in
        Qmake (digits_val (digits_val 0 ip) fp)
              (Z.to_pos (10 ^ Z.of_nat (String.length fp)))
      else inject_Z (digits_val 0 ip)
  | EmptyString => inject_Z (digits_val 0 ip)
  end.

(** [Number.prototype.toString()] / template interpolation of an integer. *)
Definition toString (z : Z) : string := NilZero.string_of_int (Z.to_int z).

(** [a > b] on numbers: false as soon as one side is NaN. *)
Definition gt (a b : JsNumber) : bool :=
  match a, b with
  | Num x, Num y => y <? x
  | _, _ => false
  end.

(** [Math.ceil(x / 1000)] for an integer [x]. *)
Definition ceil_div_1000 (x : Z) : Z := - ((- x) / 1000).

Definition pad (width : nat) (s : string) : string :=
  String.concat "" (repeat "0" (width - String.length s)%nat) +:+ s.

(** [new Date(ms).toISOString()], for time values whose year has four
    digits (0000 to 9999); the date is obtained from the day number by
    the usual era / day-of-era computation of the proleptic Gregorian
    calendar. *)
Definition toISOString (ms : Z) : string :=
  let days := ms / 86400000 in
  let rem := ms mod 86400000 in
  let z := days + 719468 in
  let era := z / 146097 in
  let doe := z - era * 146097 in
  let yoe := (doe - doe / 1460 + doe / 36524 - doe / 146096) / 365 in
  let doy := doe - (365 * yoe + yoe / 4 - yoe / 100) in
  let mp := (5 * doy + 2) / 153 in
  let d := doy - (153 * mp + 2) / 5 + 1 in
  let m := if mp <? 10 then mp + 3 else mp - 9 in
  let y := yoe + era * 400 + (if m <=? 2 then 1 else 0) in
  pad 4 (toString y) +:+ "-" +:+ pad 2 (toString m) +:+ "-" +:+ pad 2 (toString d)
  +:+ "T" +:+ pad 2 (toString (rem / 3600000))
  +:+ ":" +:+ pad 2 (toString (rem / 60000 mod 60))
  +:+ ":" +:+ pad 2 (toString (rem / 1000 mod 60))
  +:+ "." +:+ pad 3 (toString (rem mod 1000)) +:+ "Z".

End Js.

Import Js.

(** ** Requests, responses and header lists *)

(** A [Headers] object: names are case-insensitive, so the map is keyed by
    the lower-cased name. *)
Abbreviation Headers := (gmap string string).

Definition headers_get (h : Headers) (name : string) : option string :=
  h !! toLowerCase name.

Definition headers_set (name value : string) (h : Headers) : Headers :=
  <[toLowerCase name := value]> h.

(** The [Headers] built from an object literal of name/value pairs. *)
Definition headers_of (l : list (string * string)) : Headers :=
  foldl (fun h nv => headers_set nv.1 nv.2 h) ∅ l.

Inductive Body :=
| BodyNull
| BodyText (s : string)
| BodyJson (fields : list (string * string)).

Record Request := {
  method : string;
  req_headers : Headers;
  req_body : Body
}.

Record Response := {
  status : Z;
  statusText : string;
  headers : Headers;
  body : Body
}.

(** A body given as a string or as JSON data brings its own content type
    unless the init headers already name one. *)
Definition with_content_type (ct : string) (h : Headers) : Headers :=
  match headers_get h "Content-Type" with
  | Some _ => h
  | None => headers_set "Content-Type" ct h
  end.

(** [new Response(null, { status, headers })] *)
Definition new_Response_null (st : Z) (hs : Headers) : Response :=
  {| status := st; statusText := ""; headers := hs; body := BodyNull |}.

(** [new Response(text, { status, headers })] *)
Definition new_Response_text (text : string) (st : Z) (hs : Headers) : Response :=
  {| status := st; statusText := "";
     headers := with_content_type "text/plain;charset=UTF-8" hs;
     body := BodyText text |}.

(** [Response.json(data, { status, headers })] for an object of string fields. *)
Definition Response_json (data : list (string * string)) (st : Z) (hs : Headers)
  : Response :=
  {| status := st; statusText := "";
     headers := with_content_type "application/json" hs;
     body := BodyJson data |}.

(** [new Response(response.body, { status: response.status,
    statusText: response.statusText, headers })]: the body stream is passed
    on as it is, only the header list is replaced. *)
Definition rewrap (response : Response) (hs : Headers) : Response :=
  {| status := status response; statusText := statusText response;
     headers := hs; body := body response |}.

(** ** app/lib/middleware.ts *)

(** *** Size strings *)

(** What [units[unit]] evaluates to.  [units] is an object literal, so a
    key that it does not own is looked up on [Object.prototype]; the only
    property there whose name is made of lower-case letters is
    [constructor], a function. *)
Inductive UnitsEntry :=
| OwnNumber (n : Z)
| InheritedFunction
| Undefined.

Definition units (unit : string) : UnitsEntry :=
  if String.eqb unit "b" then OwnNumber 1
  else if String.eqb unit "kb" then OwnNumber 1024
  else if String.eqb unit "mb" then OwnNumber (1024 * 1024)
  else if String.eqb unit "gb" then OwnNumber (1024 * 1024 * 1024)
  else if String.eqb unit "constructor" then InheritedFunction
  else Undefined.

(** [size.match(/^(\d+(?:\.\d+)?)\s*([a-z]+)?$/)]: the two capture groups,
    the second one absent when no letter follows.  The character classes
    are pairwise disjoint, so the greedy left-to-right reading is the only
    way the pattern can match. *)
Definition size_match (s : string) : option (string * option string) :=
  let '(ip, r1) := span is_digit s in
  if is_empty ip then None
  else
    let '(num, r2) :=
      match r1 with
      | String c r =>
          if Ascii.eqb c "." then
            let '(fp, r') := span is_digit r in
            if is_empty fp then (ip, r1) else (ip +:+ "." +:+ fp, r')
          else (ip, r1)
      | EmptyString => (ip, r1)
      end in
    let r3 := (span is_space r2).2 in
    let '(u, r4) := span is_lower r3 in
    if is_empty r4 then Some (num, if is_empty u then None else Some u)
    else None.

(** [Math.floor(value * multiplier)] with [multiplier = units[unit] || 1]. *)
Definition scale (value : Q) (e : UnitsEntry) : JsNumber :=
  match e with
  | OwnNumber n => Num (Qfloor (value * inject_Z n))
  | InheritedFunction => NaN
  | Undefined => Num (Qfloor (value * inject_Z 1))
  end.

Definition parseSize (size : string) : Result JsNumber :=
  match size_match (toLowerCase size) with
  | None => Throw ("Invalid size format: " +:+ size)
  | Some (m1, m2) =>
      let value := parseFloat m1 in
      let unit := or_default m2 "b" in
      Ok (scale value (units unit))
  end.

(** *** SizeGuard *)

Record BodyCheck := {
  valid : bool;
  error : option Response
}.

Definition show (n : JsNumber) : string :=
  match n with
  | NaN => "NaN"
  | Num z => toString z
  end.

Definition payload_message (requestSize sizeLimit : JsNumber) : string :=
  "Request body size (" +:+ show requestSize +:+ " bytes) exceeds limit ("
  +:+ show sizeLimit +:+ " bytes)".

Definition checkBodySizeLimit (request : Request) (limit : string)
  : Result BodyCheck :=
  let contentLength := headers_get (req_headers request) "content-length" in
  if truthy contentLength then
    match parseSize limit with
    | Throw msg => Throw msg
    | Ok sizeLimit =>
        let requestSize := parseInt10 (default "" contentLength) in
        if gt requestSize sizeLimit then
          Ok {| valid := false;
                error := Some (Response_json
                                 [("error", "Payload too large");
                                  ("message", payload_message requestSize sizeLimit)]
                                 413 ∅) |}
        else Ok {| valid := true; error := None |}
    end
  else Ok {| valid := true; error := None |}.

(** *** RateLimiter *)

(** The readings of the ambient clock and random source that one pass
    through the gate consumes, one field per call site:
    [Math.random()] in [checkRateLimit], [Date.now()] in [cleanup], in
    [isAllowed], and in the [Retry-After] computation. *)
Record Oracle := {
  random : Q;
  now_cleanup : Z;
  now_check : Z;
  now_retry : Z
}.

Module RateLimiter.

(** The value type of the [requests] map. *)
Record ClientWindow := {
  count : Z;
  resetAt : Z
}.

(** The [requests] map. *)
Abbreviation Store := (gmap string ClientWindow).

(** The two [readonly] fields set by the constructor. *)
Record t := {
  maxRequests : Z;
  windowMs : Z
}.

(** [constructor(maxRequests = 100, windowMs = 60000)] *)
Definition new (maxRequests windowMs : option Z) : t :=
  {| maxRequests := default 100 maxRequests;
     windowMs := default 60000 windowMs |}.

(** The object returned by [isAllowed]; all three fields are always set. *)
Record Verdict := {
  allowed : bool;
  remaining : Z;
  v_resetAt : Z
}.

Definition getClientId (request : Request) : string :=
  let cfConnectingIp := headers_get (req_headers request) "cf-connecting-ip" in
  if truthy cfConnectingIp then default "" cfConnectingIp
  else
    let userAgent :=
      or_default (headers_get (req_headers request) "user-agent") "unknown" in
    let origin :=
      or_default (headers_get (req_headers request) "origin") "unknown" in
    userAgent +:+ "-" +:+ origin.

(** [isAllowed], with the reading [now] of [Date.now()] made explicit and
    the [requests] map passed in and out. *)
Definition isAllowed (this : t) (request : Request) (now : Z) (requests : Store)
  : Verdict * Store :=
  let clientId := getClientId request in
  match requests !! clientId with
  | None =>
      ({| allowed := true; remaining := maxRequests this - 1;
          v_resetAt := now + windowMs this |},
       <[clientId := {| count := 1; resetAt := now + windowMs this |}]> requests)
  | Some record =>
      if resetAt record <? now then
        ({| allowed := true; remaining := maxRequests this - 1;
            v_resetAt := now + windowMs this |},
         <[clientId := {| count := 1; resetAt := now + windowMs this |}]> requests)
      else if maxRequests this <=? count record then
        ({| allowed := false; remaining := 0; v_resetAt := resetAt record |},
         requests)
      else
        let record' := {| count := count record + 1; resetAt := resetAt record |} in
        ({| allowed := true; remaining := maxRequests this - count record';
            v_resetAt := resetAt record' |},
         <[clientId := record']> requests)
  end.

(** [cleanup]: every entry with [now > value.resetAt] is deleted. *)
Definition cleanup (now : Z) (requests : Store) : Store :=
  filter (fun kv => ¬ (resetAt kv.2 < now)) requests.

End RateLimiter.

Import RateLimiter.

(** The module-level instance: [new RateLimiter(100, 60000)]. *)
Definition rateLimiter : RateLimiter.t := RateLimiter.new (Some 100) (Some 60000).

Record RateCheck := {
  rc_allowed : bool;
  rc_error : option Response;
  rc_headers : Headers
}.

(** [Math.random() < 0.001] *)
Definition sweep_drawn (o : Oracle) : bool :=
  negb (Qle_bool (1 # 1000) (random o)).

(** [checkRateLimit(request, maxRequests = 100, windowMs = 60000)]; the
    store of the module-level limiter goes in and comes out. *)
Definition checkRateLimit (request : Request) (maxRequests windowMs : option Z)
    (o : Oracle) (requests : Store) : RateCheck * Store :=
  let maxRequests := default 100 maxRequests in
  let requests1 :=
    if sweep_drawn o then RateLimiter.cleanup (now_cleanup o) requests
    else requests in
  let '(result, requests2) :=
    RateLimiter.isAllowed rateLimiter request (now_check o) requests1 in
  let headers := headers_set "X-RateLimit-Limit" (toString maxRequests) ∅ in
  let headers :=
    headers_set "X-RateLimit-Remaining" (toString (remaining result)) headers in
  let headers :=
    if v_resetAt result =? 0 then headers
    else headers_set "X-RateLimit-Reset" (toISOString (v_resetAt result)) headers in
  if negb (allowed result) then
    ({| rc_allowed := false;
        rc_error :=
          Some (Response_json
                  [("error", "Too many requests");
                   ("message", "Rate limit exceeded. Please try again later.")]
                  429
                  (headers_set "Retry-After"
                     (toString (ceil_div_1000 (v_resetAt result - now_retry o)))
                     headers));
        rc_headers := headers |},
     requests2)
  else
    ({| rc_allowed := true; rc_error := None; rc_headers := headers |}, requests2).

(** *** CorsPolicy *)

Record CorsResult := {
  isPreflight : bool;
  preflightResponse : option Response
}.

(** [origin === allowedOrigin] where [origin] may be [null]. *)
Definition origin_matches (origin : option string) (allowedOrigin : string) : bool :=
  match origin with
  | Some o => String.eqb o allowedOrigin
  | None => false
  end.

Definition handleCORS (request : Request) (allowedOrigin : string) : CorsResult :=
  let origin := headers_get (req_headers request) "Origin" in
  if String.eqb (method request) "OPTIONS" then
    if origin_matches origin allowedOrigin then
      {| isPreflight := true;
         preflightResponse :=
           Some (new_Response_null 204
                   (headers_of
                      [("Access-Control-Allow-Origin", allowedOrigin);
                       ("Access-Control-Allow-Methods",
                        "GET, POST, PUT, DELETE, PATCH, OPTIONS");
                       ("Access-Control-Allow-Headers", "Content-Type, Authorization");
                       ("Access-Control-Max-Age", "86400");
                       ("Access-Control-Allow-Credentials", "true")])) |}
    else
      {| isPreflight := true;
         preflightResponse := Some (new_Response_text "Forbidden" 403 ∅) |}
  else {| isPreflight := false; preflightResponse := None |}.

Definition addCORSHeaders (response : Response) (request : Request)
    (allowedOrigin : string) : Response :=
  let origin := headers_get (req_headers request) "Origin" in
  if origin_matches origin allowedOrigin then
    let headers := headers response in
    let headers := headers_set "Access-Control-Allow-Origin" allowedOrigin headers in
    let headers := headers_set "Access-Control-Allow-Credentials" "true" headers in
    let headers := headers_set "Vary" "Origin" headers in
    rewrap response headers
  else response.

(** *** SecurityHeaderPolicy *)

Definition csp_value : string :=
  "default-src 'self'; script-src 'self' 'unsafe-inline' 'unsafe-eval'; style-src 'self' 'unsafe-inline' https://fonts.googleapis.com; font-src 'self' https://fonts.gstatic.com; img-src 'self' data: https:; connect-src 'self'".

Definition permissions_value : string :=
  "geolocation=(), microphone=(), camera=(), payment=(), usb=(), magnetometer=(), gyroscope=(), speaker=()".

Definition addSecurityHeaders (response : Response) : Response :=
  let headers := headers response in
  let headers := headers_set "X-Frame-Options" "DENY" headers in
  let headers := headers_set "X-Content-Type-Options" "nosniff" headers in
  let headers := headers_set "X-XSS-Protection" "1; mode=block" headers in
  let headers :=
    headers_set "Strict-Transport-Security" "max-age=31536000; includeSubDomains"
      headers in
  let headers := headers_set "Content-Security-Policy" csp_value headers in
  let headers :=
    headers_set "Referrer-Policy" "strict-origin-when-cross-origin" headers in
  let headers := headers_set "Permissions-Policy" permissions_value headers in
  rewrap response headers.

(** *** applyMiddleware *)

Record RateLimitOptions := {
  opt_maxRequests : option Z;
  opt_windowMs : option Z
}.

Record Options := {
  bodySizeLimit : option string;
  rateLimit : option RateLimitOptions;
  securityHeaders : option bool
}.

Record MiddlewareResult := {
  mw_error : option Response;
  modifiedRequest : option Request
}.

(** The size check runs first; the limiter is consulted only when it
    passes.  A malformed [bodySizeLimit] makes the call throw before the
    limiter is touched. *)
Definition applyMiddleware (request : Request) (options : Options)
    (o : Oracle) (requests : Store) : Result MiddlewareResult * Store :=
  let bodySizeLimit := default "10mb" (bodySizeLimit options) in
  let rateLimit :=
    default {| opt_maxRequests := Some 100; opt_windowMs := Some 60000 |}
            (rateLimit options) in
  match checkBodySizeLimit request bodySizeLimit with
  | Throw msg => (Throw msg, requests)
  | Ok bodyCheck =>
      if negb (valid bodyCheck) then
        (Ok {| mw_error := error bodyCheck; modifiedRequest := None |}, requests)
      else
        let '(rateCheck, requests') :=
          checkRateLimit request (opt_maxRequests rateLimit) (opt_windowMs rateLimit)
            o requests in
        if negb (rc_allowed rateCheck) then
          (Ok {| mw_error := rc_error rateCheck; modifiedRequest := None |}, requests')
        else
          (Ok {| mw_error := None; modifiedRequest := Some request |}, requests')
  end.

(** ** workers/app.ts *)

(** The bindings the worker reads from its environment. *)
Record Env := {
  FRONTEND_URL : option string
}.

Definition worker_options : Options :=
  {| bodySizeLimit := Some "10mb";
     rateLimit := Some {| opt_maxRequests := Some 100;
                          opt_windowMs := Some (15 * 60 * 1000) |};
     securityHeaders := Some true |}.

(** The exported [fetch] handler.  [requestHandler] is the React Router
    request handler, an opaque collaborator of the gate. *)
Definition fetch (requestHandler : Request -> Response) (request : Request)
    (env : Env) (o : Oracle) (requests : Store) : Result Response * Store :=
  let allowedOrigin := or_default (FRONTEND_URL env) "http://localhost:5173" in
  let corsResult := handleCORS request allowedOrigin in
  if isPreflight corsResult then
    (Ok (default (new_Response_null 204 ∅) (preflightResponse corsResult)), requests)
  else
    match applyMiddleware request worker_options o requests with
    | (Throw msg, requests') => (Throw msg, requests')
    | (Ok middlewareResult, requests') =>
        match mw_error middlewareResult with
        | Some err =>
            let errorResponse := addSecurityHeaders err in
            (Ok (addCORSHeaders errorResponse request allowedOrigin), requests')
        | None =>
            let response :=
              requestHandler (default request (modifiedRequest middlewareResult)) in
            let securedResponse := addSecurityHeaders response in
            (Ok (addCORSHeaders securedResponse request allowedOrigin), requests')
        end
    end.

(** ** Traces of the limiter *)

(** What can happen to one limiter: a request is checked, or the sweep
    runs; each with the clock reading it observes. *)
Inductive Event :=
| Call (request : Request) (now : Z)
| Sweep (now : Z).

(** Runs the events in order; returns the verdicts of the calls, oldest
    first, and the final store. *)
Fixpoint run (this : RateLimiter.t) (events : list Event) (requests : Store)
  : list Verdict * Store :=
  match events with
  | [] => ([], requests)
  | Call request now :: rest =>
      let '(v, requests') := isAllowed this request now requests in
      let '(vs, final) := run this rest requests' in
      (v :: vs, final)
  | Sweep now :: rest => run this rest (cleanup now requests)
  end.


(** The event is not a call on behalf of client [id]. *)
Definition foreign (id : string) (e : Event) : Prop :=
  match e with
  | Call request _ => getClientId request ≠ id
  | Sweep _ => True
  end.

(** The test under which [isAllowed] opens a new window for [id]. *)
Definition opens_window (requests : Store) (id : string) (now : Z) : Prop :=
  match requests !! id with
  | None => True
  | Some record => resetAt record < now
  end.

(** One pass through [checkRateLimit]: the request, the two limit
    arguments and the oracle readings of that pass. *)
Record Pass := {
  pass_request : Request;
  pass_maxRequests : option Z;
  pass_windowMs : option Z;
  pass_oracle : Oracle
}.

(** A sequence of passes through [checkRateLimit]; returns the final store. *)
Fixpoint process (passes : list Pass) (requests : Store) : Store :=
  match passes with
  | [] => requests
  | p :: rest =>
      process rest
        (checkRateLimit (pass_request p) (pass_maxRequests p) (pass_windowMs p)
           (pass_oracle p) requests).2
  end.


(** A request that reaches the worker from the given client address. *)
Definition request_from (ip : string) : Request :=
  {| method := "POST";
     req_headers := headers_of [("CF-Connecting-IP", ip)];
     req_body := BodyNull |}.

(** A request with the given method and [Origin] header. *)
Definition request_with_origin (m origin : string) : Request :=
  {| method := m;
     req_headers := headers_of [("Origin", origin)];
     req_body := BodyNull |}.

(** The fixed header set of SecurityHeaderPolicy, with the documented values. *)
Definition security_headers : list (string * string) :=
  [("X-Frame-Options", "DENY");
   ("X-Content-Type-Options", "nosniff");
   ("X-XSS-Protection", "1; mode=block");
   ("Strict-Transport-Security", "max-age=31536000; includeSubDomains");
   ("Content-Security-Policy", csp_value);
   ("Referrer-Policy", "strict-origin-when-cross-origin");
   ("Permissions-Policy", permissions_value)].

(** The headers that [addCORSHeaders] writes. *)
Definition cors_names : list string :=
  ["access-control-allow-origin"; "access-control-allow-credentials"; "vary"].

(** A header list, and a response, with [X-RateLimit-Limit] left out. *)
Definition without_limit (h : Headers) : Headers :=
  delete (toLowerCase "X-RateLimit-Limit") h.

Definition response_without_limit (r : Response) : Response :=
  rewrap r (without_limit (headers r)).

(** Everything [checkRateLimit] returns except the text of the
    [X-RateLimit-Limit] header. *)
Definition decision (r : RateCheck) : bool * option Response * Headers :=
  (rc_allowed r, response_without_limit <$> rc_error r, without_limit (rc_headers r)).

(** The store [checkRateLimit] hands to the limiter: swept when the draw
    says so. *)
Definition swept (o : Oracle) (requests : Store) : Store :=
  if sweep_drawn o then cleanup (now_cleanup o) requests else requests.

(** Every stored counter lies between 1 and [maxRequests]. *)
Definition bounded (this : RateLimiter.t) (requests : Store) : Prop :=
  ∀ id record, requests !! id = Some record → 1 ≤ count record ≤ maxRequests this.

(** ** The size pattern, spelled out *)

(** Every character of [s] satisfies [p]. *)
Fixpoint all (p : ascii -> bool) (s : string) : bool :=
  match s with
  | EmptyString => true
  | String c s' => p c && all p s'
  end.







(** [b] is empty or starts with a character outside [p]. *)
Definition stops (p : ascii -> bool) (b : string) : Prop :=
  match b with
  | EmptyString => True
  | String c _ => p c = false
  end.

(** The body length a request declares: the number [parseInt] reads from
    its [Content-Length] header, NaN when there is no such header or no
    number in it. *)
Definition declared_length (request : Request) : JsNumber :=
  match headers_get (req_headers request) "Content-Length" with
  | Some s => parseInt10 s
  | None => NaN
  end.

(** The 413 response for a body of [n] bytes against a limit of [L] bytes. *)
Definition payload_too_large (n L : Z) : Response :=
  Response_json
    [("error", "Payload too large");
     ("message",
      "Request body size (" +:+ toString n +:+ " bytes) exceeds limit ("
      +:+ toString L +:+ " bytes)")]
    413 ∅.

(** A request that declares the given [Content-Length]. *)
Definition request_of_length (len : string) : Request :=
  {| method := "POST";
     req_headers := headers_of [("Content-Length", len)];
     req_body := BodyNull |}.


(** A table holding one window, of client 198.51.100.2, that expired at
    time 1000, and oracle readings of a pass at time 2000 that draws the
    sweep. *)
Definition expired_table : Store :=
  {[ "198.51.100.2" := {| count := 5; resetAt := 1000 |} ]}.

Definition sweeping_pass : Oracle :=
  {| random := 0; now_cleanup := 2000; now_check := 2000; now_retry := 2000 |}.


(** A table holding one window of client 203.0.113.7 that ends at time 1000. *)
Definition running_table : Store :=
  {[ "203.0.113.7" := {| count := 5; resetAt := 1000 |} ]}.

(** ** Sequences of calls of one client *)

(** A call given as a request and the clock reading it observes. *)
Definition call_of (c : Request * Z) : Event := Call c.1 c.2.

(** The verdict of a call made when [made] calls were already counted in
    a window that ends at [reset]. *)
Definition verdict_after (this : RateLimiter.t) (reset : Z) (made : Z) : Verdict :=
  if made <? maxRequests this then
    {| allowed := true; remaining := maxRequests this - made - 1; v_resetAt := reset |}
  else {| allowed := false; remaining := 0; v_resetAt := reset |}.

(** The limiter of the specification's scenario: 2 requests per 1000 ms. *)
Definition scenario_limiter : RateLimiter.t := RateLimiter.new (Some 2) (Some 1000).

(** A request carrying the given client address together with a user
    agent and an origin. *)
Definition request_from_agent (ip agent origin : string) : Request :=
  {| method := "GET";
     req_headers :=
       headers_of [("CF-Connecting-IP", ip); ("User-Agent", agent); ("Origin", origin)];
     req_body := BodyNull |}.

(** ** The outcomes of the gate *)

(** The origin the worker allows: [env.FRONTEND_URL || "http://localhost:5173"]. *)
Definition allowed_origin (env : Env) : string :=
  or_default (FRONTEND_URL env) "http://localhost:5173".

(** The request declares a body longer than [limit] bytes. *)
Definition oversize (limit : Z) (request : Request) : Prop :=
  ∃ n, declared_length request = Num n ∧ limit < n.

(** The worker answers the request itself, without the downstream handler:
    it is a preflight, or it declares more than 10 MiB, or the limiter
    denies it. *)
Definition rejected (request : Request) (o : Oracle) (requests : Store) : Prop :=
  method request = "OPTIONS"
  ∨ oversize 10485760 request
  ∨ rc_allowed (checkRateLimit request (Some 100) (Some (15 * 60 * 1000)) o requests).1
    = false.

(** ** app/routes/explain-code.ts *)

(** A value of a submitted form: text, or an uploaded file. *)
Inductive FormValue :=
| FormText (s : string)
| FormFile (name : string).

(** A submitted form, in submission order; [get] returns the first value
    stored under the name, [None] standing for [null]. *)
Abbreviation Form := (list (string * FormValue)).

Fixpoint form_get (form : Form) (name : string) : option FormValue :=
  match form with
  | [] => None
  | (n, v) :: rest => if String.eqb n name then Some v else form_get rest name
  end.

(** Truthiness of [FormDataEntryValue | null]: a file object is truthy, a
    string when it is not empty. *)
Definition form_truthy (v : option FormValue) : bool :=
  match v with
  | Some (FormText s) => negb (is_empty s)
  | Some (FormFile _) => true
  | None => false
  end.

(** A form value inside a template literal. *)
Definition form_text (v : FormValue) : string :=
  match v with
  | FormText s => s
  | FormFile _ => "[object File]"
  end.

(** The part of the model's answer that the action reads. *)
Record ContentItem := { text : string }.
Record OutputItem := { content : option (list ContentItem) }.
Record Usage := { input_tokens : Z; output_tokens : Z; total_tokens : Z }.
Record AIResponse := {
  output : option (list OutputItem);
  usage : option Usage
}.

(** The options passed to [AI.run]. *)
Record AIOptions := {
  role : string;
  input : string;
  temperature : Q;
  max_tokens : Z;
  reasoning_effort : string;
  reasoning_summary : string
}.

(** The [AI] binding: [run(model, options)], which may throw and may
    resolve to [null] or [undefined]. *)
Abbreviation AIBinding := (string -> AIOptions -> Result (option AIResponse)).

(** The data handed to [Response.json], and the status given with it. *)
Inductive ActionData :=
| ErrorData (error : string)
| ExplanationData (explanation : string) (language : FormValue) (usage : option Usage).

Record JsonResponse := {
  json_status : Z;
  json_data : ActionData
}.

(** [response?.output?.[1]?.content?.[0]?.text || ""] *)
Definition explanation_of (response : option AIResponse) : string :=
  match response with
  | Some r =>
      match output r with
      | Some items =>
          match items !! 1%nat with
          | Some item =>
              match content item with
              | Some (first :: _) => text first
              | _ => ""
              end
          | None => ""
          end
      | None => ""
      end
  | None => ""
  end.

Definition prompt (language code : FormValue) : string :=
  "Please explain this " +:+ form_text language +:+ " code in simple terms: "
  +:+ String (ascii_of_nat 10) (String (ascii_of_nat 10) "```")
  +:+ form_text code +:+ "```".

(** [action]: [formData] is the outcome of [await request.formData()],
    which is awaited before the [try] block. *)
Definition action (formData : Result Form) (AI : AIBinding) : Result JsonResponse :=
  match formData with
  | Throw msg => Throw msg
  | Ok formData =>
      let code := form_get formData "code" in
      let language :=
        if form_truthy (form_get formData "language")
        then default (FormText "") (form_get formData "language")
        else FormText "" in
      if negb (form_truthy code) then
        Ok {| json_status := 400; json_data := ErrorData "Code is required" |}
      else if negb (form_truthy (Some language)) then
        Ok {| json_status := 400; json_data := ErrorData "Language is required" |}
      else
        match AI "@cf/openai/gpt-oss-120b"
                {| role := "user";
                   input := prompt language (default (FormText "") code);
                   temperature := 3 # 10;
                   max_tokens := 800;
                   reasoning_effort := "low";
                   reasoning_summary := "auto" |} with
        | Ok response =>
            Ok {| json_status := 200;
                  json_data :=
                    ExplanationData (explanation_of response) language
                      (match response with Some r => usage r | None => None end) |}
        | Throw _ =>
            Ok {| json_status := 500; json_data := ErrorData "Failed to explain code" |}
        end
  end.

(** The options with which the action calls the model for the given
    language and code. *)
Definition model_options (language code : FormValue) : AIOptions :=
  {| role := "user";
     input := prompt language code;
     temperature := 3 # 10;
     max_tokens := 800;
     reasoning_effort := "low";
     reasoning_summary := "auto" |}.

(** A model that always fails, and one that answers without any output. *)
Definition failing_model : AIBinding := fun _ _ => Throw "model unavailable".
Definition silent_model : AIBinding :=
  fun _ _ => Ok (Some {| output := Some []; usage := None |}).

(** ** components/typing-animation.tsx *)

(** The state of one [TypingAnimation]: the two pieces of React state, the
    two refs, the index kept by the effect, and the number of calls of
    [onComplete] made so far. *)
Record Typing := {
  currentIndex : nat;
  displayedText : string;
  isComplete : bool;
  stoppedRef : bool;
  intervalRef : bool;
  completions : nat
}.

(** The state a freshly mounted component has before its effect runs. *)
Definition mounted : Typing :=
  {| currentIndex := 0; displayedText := ""; isComplete := false;
     stoppedRef := false; intervalRef := false; completions := 0 |}.

(** The effect for the given [text], run after the clean-up of the
    previous one: nothing is started for an empty text. *)
Definition start (text : string) (st : Typing) : Typing :=
  if is_empty text then
    {| currentIndex := currentIndex st; displayedText := displayedText st;
       isComplete := isComplete st; stoppedRef := stoppedRef st;
       intervalRef := false; completions := completions st |}
  else
    {| currentIndex := 0; displayedText := ""; isComplete := false;
       stoppedRef := false; intervalRef := true; completions := completions st |}.

(** One firing of the interval; an interval that was cleared does not fire. *)
Definition tick (text : string) (st : Typing) : Typing :=
  if negb (intervalRef st) then st
  else if stoppedRef st then
    {| currentIndex := currentIndex st; displayedText := displayedText st;
       isComplete := isComplete st; stoppedRef := stoppedRef st;
       intervalRef := false; completions := completions st |}
  else if (currentIndex st <? String.length text)%nat then
    {| currentIndex := S (currentIndex st);
       displayedText := substring 0 (S (currentIndex st)) text;
       isComplete := isComplete st; stoppedRef := stoppedRef st;
       intervalRef := true; completions := completions st |}
  else
    {| currentIndex := currentIndex st; displayedText := displayedText st;
       isComplete := true; stoppedRef := stoppedRef st;
       intervalRef := false; completions := S (completions st) |}.

(** The [stop] handle. *)
Definition stop (st : Typing) : Typing :=
  {| currentIndex := currentIndex st; displayedText := displayedText st;
     isComplete := true; stoppedRef := true;
     intervalRef := false; completions := S (completions st) |}.

(** [k] firings of the interval. *)
Definition ticks (k : nat) (text : string) (st : Typing) : Typing :=
  Nat.iter k (tick text) st.

(** ** routes/home.tsx: the message list of the page *)




Module Home.

Inductive MessageType :=
| user
| assistant.

Record Message := {
  id : string;
  type : MessageType;
  content : string;
  language : option string;
  timestamp : Z;
  isTyping : option bool
}.

(** What the fetcher delivers from the action. *)
Record FetcherData := {
  explanation : option string;
  error : option string
}.

(** The updater [prev.map(msg => msg.id === messageId ? { ...msg,
    isTyping: false } : msg)], used by the time-out, by [onComplete] and
    by the Stop button. *)
Definition finishTyping (messageId : string) (prev : list Message) : list Message :=
  (fun msg =>
     if String.eqb (id msg) messageId then
       {| id := id msg; type := type msg; content := content msg;
          language := language msg; timestamp := timestamp msg;
          isTyping := Some false |}
     else msg) <$> prev.

(** The effect on [fetcher.data]: the new message list and, when an
    explanation arrived, the time-out it sets (message id and delay in
    ms).  [now_id] and [now_stamp] are the readings of [Date.now()] and
    [new Date()]. *)
Definition onData (data : option FetcherData) (now_id now_stamp : Z)
    (prev : list Message) : list Message * option (string * Z) :=
  match data with
  | None => (prev, None)
  | Some data =>
      if truthy (explanation data) then
        let messageId := toString now_id in
        ((prev ++ [{| id := messageId; type := assistant;
                     content := or_default (explanation data) "";
                     language := None; timestamp := now_stamp;
                     isTyping := Some true |}])%list,
         Some (messageId,
               Z.of_nat (String.length (default "" (explanation data))) * 3 + 500))
      else if truthy (error data) then
        ((prev ++ [{| id := toString now_id; type := assistant;
                     content := "Error: " +:+ default "" (error data);
                     language := None; timestamp := now_stamp;
                     isTyping := Some false |}])%list,
         None)
      else (prev, None)
  end.




End Home.

(** Oracle readings of a pass at time 400 that draws no sweep, and a table
    in which client 203.0.113.7 has used up the quota of a window that
    ends at time 1000. *)
Definition quiet_pass : Oracle :=
  {| random := 1 # 2; now_cleanup := 0; now_check := 400; now_retry := 401 |}.

Definition exhausted_table : Store :=
  {[ "203.0.113.7" := {| count := 100; resetAt := 1000 |} ]}.

(** No stored window ends later than [latest]. *)
Definition ends_by (latest : Z) (requests : Store) : Prop :=
  ∀ id record, requests !! id = Some record → resetAt record ≤ latest.

(** A hundred passes of client 203.0.113.7, all at time 400 and without a
    sweep. *)
Definition hundred_passes : list Pass :=
  replicate 100
    {| pass_request := request_from "203.0.113.7";
       pass_maxRequests := Some 100;
       pass_windowMs := Some (15 * 60 * 1000);
       pass_oracle := quiet_pass |}.

(** * Properties *)

(** ** Header lists *)

Ltac lower_names :=
  repeat match goal with
    | |- context [toLowerCase (String ?c ?s)] =>
        let v := eval vm_compute in (toLowerCase (String c s)) in
        change (toLowerCase (String c s)) with v
    | H : context [toLowerCase (String ?c ?s)] |- _ =>
        let v := eval vm_compute in (toLowerCase (String c s)) in
        change (toLowerCase (String c s)) with v in H
    end.

Lemma origin_matches_true origin allowedOrigin :
  origin_matches origin allowedOrigin = true ↔ origin = Some allowedOrigin.
Proof.
  destruct origin as [o|]; simpl; [|split; discriminate].
  rewrite String.eqb_eq. split; congruence.
Qed.

Lemma origin_matches_false origin allowedOrigin :
  origin_matches origin allowedOrigin = false ↔ origin ≠ Some allowedOrigin.
Proof.
  rewrite <- origin_matches_true. destruct (origin_matches _ _); split; congruence.
Qed.

(** ** RateLimiter.isAllowed, case by case *)

Section Limiter.
Variable this : RateLimiter.t.

Lemma isAllowed_fresh request now requests :
  opens_window requests (getClientId request) now →
  isAllowed this request now requests =
    ({| allowed := true; remaining := maxRequests this - 1;
        v_resetAt := now + windowMs this |},
     <[getClientId request := {| count := 1; resetAt := now + windowMs this |}]>
       requests).
Proof.
  unfold opens_window, isAllowed. intros H.
  destruct (requests !! getClientId request) as [record|]; [|done].
  apply Z.ltb_lt in H. by rewrite H.
Qed.

Lemma isAllowed_denied request now requests record :
  requests !! getClientId request = Some record →
  now ≤ resetAt record →
  maxRequests this ≤ count record →
  isAllowed this request now requests =
    ({| allowed := false; remaining := 0; v_resetAt := resetAt record |}, requests).
Proof.
  unfold isAllowed. intros -> Hnow Hmax.
  apply Z.ltb_ge in Hnow. apply Z.leb_le in Hmax. by rewrite Hnow, Hmax.
Qed.

Lemma isAllowed_counted request now requests record :
  requests !! getClientId request = Some record →
  now ≤ resetAt record →
  count record < maxRequests this →
  isAllowed this request now requests =
    ({| allowed := true; remaining := maxRequests this - (count record + 1);
        v_resetAt := resetAt record |},
     <[getClientId request :=
         {| count := count record + 1; resetAt := resetAt record |}]> requests).
Proof.
  unfold isAllowed. intros -> Hnow Hmax.
  apply Z.ltb_ge in Hnow. apply Z.leb_gt in Hmax. by rewrite Hnow, Hmax.
Qed.

(** A call leaves every other client's entry alone. *)
Lemma isAllowed_frame request now requests id :
  getClientId request ≠ id →
  (isAllowed this request now requests).2 !! id = requests !! id.
Proof.
  intros Hne. unfold isAllowed.
  destruct (requests !! getClientId request) as [record|]; simpl.
  - destruct (resetAt record <? now); simpl; [by rewrite lookup_insert_ne|].
    destruct (maxRequests this <=? count record); simpl; [done|].
    by rewrite lookup_insert_ne.
  - by rewrite lookup_insert_ne.
Qed.

End Limiter.

(** The sweep keeps an entry exactly when it has not expired. *)
Lemma cleanup_lookup now requests id :
  cleanup now requests !! id =
    match requests !! id with
    | Some record => if decide (resetAt record < now) then None else Some record
    | None => None
    end.
Proof.
  unfold cleanup. destruct (requests !! id) as [record|] eqn:E.
  - case_decide as Hd.
    + apply map_lookup_filter_None. right. intros x Hx. simpl.
      rewrite E in Hx. injection Hx as <-. tauto.
    + apply map_lookup_filter_Some. split; [done|]. simpl. done.
  - apply map_lookup_filter_None. by left.
Qed.

(** C2.  [RateLimiter.isAllowed] is the fixed-window counter: with no
    record, or with [now > resetAt], it stores [{count: 1, resetAt: now +
    windowMs}] and admits with [remaining = maxRequests - 1]; otherwise, if
    [count >= maxRequests], it denies with [remaining = 0], reports the
    stored [resetAt] and leaves the store as it is; otherwise it increments
    [count] and admits with [remaining = maxRequests - count] for the new
    count. *)
Theorem isAllowed_fixed_window (this : RateLimiter.t) request now requests :
  let id := getClientId request in
  let result := isAllowed this request now requests in
  ((requests !! id = None ∨
    ∃ record, requests !! id = Some record ∧ resetAt record < now) →
     result.2 = <[id := {| count := 1; resetAt := now + windowMs this |}]> requests
     ∧ allowed result.1 = true
     ∧ remaining result.1 = maxRequests this - 1
     ∧ v_resetAt result.1 = now + windowMs this)
  ∧ (∀ record, requests !! id = Some record → now ≤ resetAt record →
       maxRequests this ≤ count record →
       result.2 = requests
       ∧ allowed result.1 = false
       ∧ remaining result.1 = 0
       ∧ v_resetAt result.1 = resetAt record)
  ∧ (∀ record, requests !! id = Some record → now ≤ resetAt record →
       count record < maxRequests this →
       ∃ record',
         count record' = count record + 1 ∧ resetAt record' = resetAt record
         ∧ result.2 = <[id := record']> requests
         ∧ allowed result.1 = true
         ∧ remaining result.1 = maxRequests this - count record'
         ∧ v_resetAt result.1 = resetAt record).
Proof.
  intros id result. subst result id. split; [|split].
  - intros Hfresh. rewrite isAllowed_fresh; [done|].
    unfold opens_window. by destruct Hfresh as [-> | (record & -> & Hlt)].
  - intros record Hrec Hnow Hmax.
    by rewrite (isAllowed_denied this _ _ _ record).
  - intros record Hrec Hnow Hlt.
    exists {| count := count record + 1; resetAt := resetAt record |}.
    by rewrite (isAllowed_counted this _ _ _ record).
Qed.

Lemma isAllowed_fixed_window_witness :
  remaining (isAllowed rateLimiter (request_from "203.0.113.7") 6000
               {[ "203.0.113.7" := {| count := 3; resetAt := 5000 |} ]}).1 = 99
  ∧ allowed (isAllowed rateLimiter (request_from "203.0.113.7") 4000
               {[ "203.0.113.7" := {| count := 100; resetAt := 5000 |} ]}).1 = false
  ∧ remaining (isAllowed rateLimiter (request_from "203.0.113.7") 4000
               {[ "203.0.113.7" := {| count := 3; resetAt := 5000 |} ]}).1 = 96.
Proof.
  split; [|split].
  - destruct (isAllowed_fixed_window rateLimiter (request_from "203.0.113.7") 6000
                {[ "203.0.113.7" := {| count := 3; resetAt := 5000 |} ]})
      as (Hfresh & _ & _).
    destruct Hfresh as (_ & _ & Hrem & _); [|exact Hrem].
    right. exists {| count := 3; resetAt := 5000 |}. split; [reflexivity|simpl; lia].
  - destruct (isAllowed_fixed_window rateLimiter (request_from "203.0.113.7") 4000
                {[ "203.0.113.7" := {| count := 100; resetAt := 5000 |} ]})
      as (_ & Hdenied & _).
    destruct (Hdenied {| count := 100; resetAt := 5000 |}) as (_ & Hall & _);
      [reflexivity | simpl; lia | simpl; vm_compute; discriminate | exact Hall].
  - destruct (isAllowed_fixed_window rateLimiter (request_from "203.0.113.7") 4000
                {[ "203.0.113.7" := {| count := 3; resetAt := 5000 |} ]})
      as (_ & _ & Hcounted).
    destruct (Hcounted {| count := 3; resetAt := 5000 |})
      as (record' & Hc & _ & _ & _ & Hrem & _);
      [reflexivity | simpl; lia | simpl; vm_compute; reflexivity |].
    rewrite Hrem, Hc. reflexivity.
Defined.

(** C4, as stated, fails at [t = resetAt]: with a stored window
    [{count: 5, resetAt: 1000}] a request at time 1000 is counted in that
    window (count 6, same [resetAt]) instead of opening a fresh one. *)
Lemma window_restart_at_resetAt_counterexample :
  running_table !! "203.0.113.7" = Some {| count := 5; resetAt := 1000 |}
  ∧ (isAllowed rateLimiter (request_from "203.0.113.7") 1000 running_table).2
      !! "203.0.113.7" = Some {| count := 6; resetAt := 1000 |}
  ∧ (isAllowed rateLimiter (request_from "203.0.113.7") 1000 running_table).2
      !! "203.0.113.7" ≠ Some {| count := 1; resetAt := 1000 + windowMs rateLimiter |}
  ∧ remaining (isAllowed rateLimiter (request_from "203.0.113.7") 1000 running_table).1
    ≠ maxRequests rateLimiter - 1.
Proof.
  split; [reflexivity|]. split; [reflexivity|].
  split; vm_compute; discriminate.
Qed.

(** C4, amended.  A request observed at a time [t > resetAt] of the
    client's stored window starts a fresh window: the stored record becomes
    [{count: 1, resetAt: t + windowMs}] and the request is admitted with
    [remaining = maxRequests - 1].  A request arriving at exactly
    [t = resetAt] still belongs to the stored window: [resetAt] is kept and
    the stale counter is reused (incremented when below [maxRequests], left
    alone with a denial otherwise). *)
Theorem window_restart_after_resetAt (this : RateLimiter.t) request t requests record :
  requests !! getClientId request = Some record →
  let result := isAllowed this request t requests in
  (resetAt record < t →
     result.2 !! getClientId request
       = Some {| count := 1; resetAt := t + windowMs this |}
     ∧ allowed result.1 = true
     ∧ remaining result.1 = maxRequests this - 1
     ∧ v_resetAt result.1 = t + windowMs this)
  ∧ (t = resetAt record →
     v_resetAt result.1 = resetAt record
     ∧ ((count record < maxRequests this
         ∧ allowed result.1 = true
         ∧ result.2 !! getClientId request
             = Some {| count := count record + 1; resetAt := resetAt record |})
        ∨ (maxRequests this ≤ count record
           ∧ allowed result.1 = false
           ∧ result.2 !! getClientId request = Some record))).
Proof.
  intros Hrec result. subst result. split.
  - intros Hlt. rewrite isAllowed_fresh by (unfold opens_window; by rewrite Hrec).
    simpl. by rewrite lookup_insert_eq.
  - intros ->. destruct (Z_lt_le_dec (count record) (maxRequests this)) as [Hlt|Hge].
    + rewrite (isAllowed_counted this _ _ _ record) by (done || lia).
      simpl. split; [done|]. left. by rewrite lookup_insert_eq.
    + rewrite (isAllowed_denied this _ _ _ record) by (done || lia).
      simpl. split; [done|]. right. done.
Qed.

Lemma window_restart_after_resetAt_witness :
  (isAllowed rateLimiter (request_from "203.0.113.7") 1001 running_table).2
    !! "203.0.113.7" = Some {| count := 1; resetAt := 61001 |}
  ∧ v_resetAt (isAllowed rateLimiter (request_from "203.0.113.7") 1000
                 running_table).1 = 1000.
Proof.
  split.
  - destruct (window_restart_after_resetAt rateLimiter (request_from "203.0.113.7") 1001
                running_table {| count := 5; resetAt := 1000 |}) as (Hfresh & _);
      [reflexivity|].
    destruct Hfresh as (Hst & _); [simpl; lia|]. exact Hst.
  - destruct (window_restart_after_resetAt rateLimiter (request_from "203.0.113.7") 1000
                running_table {| count := 5; resetAt := 1000 |}) as (_ & Hsame);
      [reflexivity|].
    destruct Hsame as (Hr & _); [reflexivity|]. exact Hr.
Defined.

(** ** CorsPolicy *)

(** C9.  On an [OPTIONS] request [handleCORS] answers 204 with exactly the
    five documented CORS headers when the [Origin] header equals the
    allowed origin, and 403 with the plain body "Forbidden" and no CORS
    header for any other origin, a missing one included; on any other
    method it reports "not a preflight" and builds no response. *)
Theorem handleCORS_preflight request allowedOrigin :
  let origin := headers_get (req_headers request) "Origin" in
  let result := handleCORS request allowedOrigin in
  (method request = "OPTIONS" → origin = Some allowedOrigin →
     isPreflight result = true
     ∧ ∃ response, preflightResponse result = Some response
         ∧ status response = 204
         ∧ body response = BodyNull
         ∧ headers_get (headers response) "Access-Control-Allow-Origin"
             = Some allowedOrigin
         ∧ headers_get (headers response) "Access-Control-Allow-Methods"
             = Some "GET, POST, PUT, DELETE, PATCH, OPTIONS"
         ∧ headers_get (headers response) "Access-Control-Allow-Headers"
             = Some "Content-Type, Authorization"
         ∧ headers_get (headers response) "Access-Control-Max-Age" = Some "86400"
         ∧ headers_get (headers response) "Access-Control-Allow-Credentials"
             = Some "true"
         ∧ size (headers response) = 5%nat)
  ∧ (method request = "OPTIONS" → origin ≠ Some allowedOrigin →
     isPreflight result = true
     ∧ ∃ response, preflightResponse result = Some response
         ∧ status response = 403
         ∧ body response = BodyText "Forbidden"
         ∧ ∀ name, toLowerCase name ≠ "content-type" →
             headers_get (headers response) name = None)
  ∧ (method request ≠ "OPTIONS" →
     result = {| isPreflight := false; preflightResponse := None |}).
Proof.
  intros origin result. subst origin result. unfold handleCORS.
  split; [|split].
  - intros Hm Ho. apply String.eqb_eq in Hm. apply origin_matches_true in Ho.
    rewrite Hm, Ho. split; [reflexivity|].
    eexists. split; [reflexivity|]. repeat (split; [reflexivity|]). reflexivity.
  - intros Hm Ho. apply String.eqb_eq in Hm. apply origin_matches_false in Ho.
    rewrite Hm, Ho. split; [reflexivity|].
    eexists. split; [reflexivity|]. repeat (split; [reflexivity|]).
    intros name Hname. simpl.
    unfold with_content_type, headers_get, headers_set. lower_names.
    rewrite lookup_empty. rewrite lookup_insert_ne by done. apply lookup_empty.
  - intros Hm. apply String.eqb_neq in Hm. by rewrite Hm.
Qed.

Lemma handleCORS_preflight_witness :
  (∃ response,
      preflightResponse
        (handleCORS (request_with_origin "OPTIONS" "https://app.example")
           "https://app.example") = Some response
      ∧ status response = 204)
  ∧ (∃ response,
      preflightResponse
        (handleCORS (request_with_origin "OPTIONS" "https://evil.example")
           "https://app.example") = Some response
      ∧ status response = 403)
  ∧ handleCORS (request_with_origin "GET" "https://app.example") "https://app.example"
    = {| isPreflight := false; preflightResponse := None |}.
Proof.
  split; [|split].
  - destruct (handleCORS_preflight (request_with_origin "OPTIONS" "https://app.example")
                "https://app.example") as (Hok & _ & _).
    destruct Hok as (_ & response & Hresp & Hstatus & _); [reflexivity..|].
    exists response. split; assumption.
  - destruct (handleCORS_preflight (request_with_origin "OPTIONS" "https://evil.example")
                "https://app.example") as (_ & Hno & _).
    destruct Hno as (_ & response & Hresp & Hstatus & _);
      [reflexivity | vm_compute; discriminate |].
    exists response. split; assumption.
  - destruct (handleCORS_preflight (request_with_origin "GET" "https://app.example")
                "https://app.example") as (_ & _ & Hnot).
    apply Hnot. vm_compute. discriminate.
Defined.

(** C10.  [addCORSHeaders] sets [Access-Control-Allow-Origin] to the
    allowed origin, [Access-Control-Allow-Credentials: true] and
    [Vary: Origin], and nothing else, when the request's [Origin] equals
    the allowed origin; for any other origin, a missing one included, it
    returns the response as it is.  Status, status text, body and every
    other header are kept in both cases. *)
Theorem addCORSHeaders_exact response request allowedOrigin :
  let origin := headers_get (req_headers request) "Origin" in
  let result := addCORSHeaders response request allowedOrigin in
  (origin = Some allowedOrigin →
     headers result =
       headers_set "Vary" "Origin"
         (headers_set "Access-Control-Allow-Credentials" "true"
            (headers_set "Access-Control-Allow-Origin" allowedOrigin
               (headers response)))
     ∧ headers_get (headers result) "Access-Control-Allow-Origin" = Some allowedOrigin
     ∧ headers_get (headers result) "Access-Control-Allow-Credentials" = Some "true"
     ∧ headers_get (headers result) "Vary" = Some "Origin")
  ∧ (origin ≠ Some allowedOrigin → result = response)
  ∧ status result = status response
  ∧ statusText result = statusText response
  ∧ body result = body response
  ∧ (∀ name, toLowerCase name ∉ cors_names →
       headers_get (headers result) name = headers_get (headers response) name).
Proof.
  intros origin result. subst origin result. unfold addCORSHeaders.
  destruct (origin_matches _ allowedOrigin) eqn:E.
  - apply origin_matches_true in E.
    split; [intros _; split; [reflexivity|]|split; [intros Hne; by destruct Hne|]].
    + unfold rewrap, headers_get, headers_set. simpl. lower_names.
      split; [|split]; rewrite ?lookup_insert_ne by done; apply lookup_insert_eq.
    + repeat (split; [reflexivity|]).
      intros name Hname. simpl. unfold headers_get, headers_set. lower_names.
      unfold cors_names in Hname. rewrite !lookup_insert_ne; [done|..];
        intros Heq; apply Hname; rewrite <- Heq; set_solver.
  - apply origin_matches_false in E.
    split; [intros Heq; by destruct E|]. repeat (split; [reflexivity|]). done.
Qed.

Lemma addCORSHeaders_exact_witness :
  headers_get
    (headers (addCORSHeaders (new_Response_text "ok" 200 ∅)
                (request_with_origin "POST" "https://app.example")
                "https://app.example"))
    "Access-Control-Allow-Origin" = Some "https://app.example"
  ∧ addCORSHeaders (new_Response_text "ok" 200 ∅)
      (request_with_origin "POST" "https://evil.example") "https://app.example"
    = new_Response_text "ok" 200 ∅.
Proof.
  split.
  - destruct (addCORSHeaders_exact (new_Response_text "ok" 200 ∅)
                (request_with_origin "POST" "https://app.example")
                "https://app.example") as (Hadd & _).
    destruct Hadd as (_ & Hacao & _); [reflexivity | exact Hacao].
  - destruct (addCORSHeaders_exact (new_Response_text "ok" 200 ∅)
                (request_with_origin "POST" "https://evil.example")
                "https://app.example") as (_ & Hsame & _).
    apply Hsame. vm_compute. discriminate.
Defined.

(** ** checkRateLimit *)

Lemma without_limit_set v h :
  without_limit (headers_set "X-RateLimit-Limit" v h) = without_limit h.
Proof. unfold without_limit, headers_set. apply delete_insert_eq. Qed.

Lemma without_limit_set_ne name v h :
  toLowerCase name ≠ toLowerCase "X-RateLimit-Limit" →
  without_limit (headers_set name v h) = headers_set name v (without_limit h).
Proof.
  intros Hne. unfold without_limit, headers_set. by rewrite delete_insert_ne.
Qed.

Lemma without_limit_content_type ct h :
  without_limit (with_content_type ct h) = with_content_type ct (without_limit h).
Proof.
  unfold with_content_type, headers_get, without_limit.
  rewrite lookup_delete_ne by (lower_names; done).
  destruct (h !! toLowerCase "Content-Type"); [done|].
  fold (without_limit (headers_set "Content-Type" ct h)).
  by rewrite without_limit_set_ne by (lower_names; done).
Qed.

Lemma without_limit_agree h1 h2 name :
  without_limit h1 = without_limit h2 →
  toLowerCase name ≠ toLowerCase "X-RateLimit-Limit" →
  headers_get h1 name = headers_get h2 name.
Proof.
  unfold without_limit, headers_get. intros Heq Hne.
  rewrite <- (lookup_delete_ne h1 (toLowerCase "X-RateLimit-Limit")) by done.
  rewrite <- (lookup_delete_ne h2 (toLowerCase "X-RateLimit-Limit")) by done.
  by rewrite Heq.
Qed.

(** The decision of [checkRateLimit] written out: it is a function of the
    request, the oracle and the store alone. *)
Lemma checkRateLimit_decision request maxRequests windowMs o requests :
  let result := isAllowed rateLimiter request (now_check o) (swept o requests) in
  let base :=
    let h := headers_set "X-RateLimit-Remaining" (toString (remaining result.1)) ∅ in
    if v_resetAt result.1 =? 0 then h
    else headers_set "X-RateLimit-Reset" (toISOString (v_resetAt result.1)) h in
  decision (checkRateLimit request maxRequests windowMs o requests).1 =
    (allowed result.1,
     (if allowed result.1 then None
      else Some (Response_json
                   [("error", "Too many requests");
                    ("message", "Rate limit exceeded. Please try again later.")]
                   429
                   (headers_set "Retry-After"
                      (toString (ceil_div_1000 (v_resetAt result.1 - now_retry o)))
                      base))),
     base)
  ∧ (checkRateLimit request maxRequests windowMs o requests).2 = result.2.
Proof.
  unfold checkRateLimit, swept.
  destruct (isAllowed rateLimiter request (now_check o) _) as [v requests2].
  simpl. destruct v as [a r t]; simpl.
  assert (Hh : ∀ n,
    without_limit
      (if t =? 0
       then headers_set "X-RateLimit-Remaining" (toString r)
              (headers_set "X-RateLimit-Limit" n ∅)
       else headers_set "X-RateLimit-Reset" (toISOString t)
              (headers_set "X-RateLimit-Remaining" (toString r)
                 (headers_set "X-RateLimit-Limit" n ∅)))
    = if t =? 0 then headers_set "X-RateLimit-Remaining" (toString r) ∅
      else headers_set "X-RateLimit-Reset" (toISOString t)
             (headers_set "X-RateLimit-Remaining" (toString r) ∅)).
  { intros n. destruct (t =? 0);
      rewrite !without_limit_set_ne by (lower_names; done);
      rewrite without_limit_set; unfold without_limit; by rewrite delete_empty. }
  destruct a; simpl; unfold decision; simpl.
  - by rewrite Hh.
  - rewrite Hh. split; [|done]. do 2 f_equal. f_equal.
    unfold response_without_limit, Response_json, rewrap. simpl. f_equal.
    rewrite without_limit_content_type.
    rewrite without_limit_set_ne by (lower_names; done). by rewrite Hh.
Qed.

(** C3.  The arguments [maxRequests] and [windowMs] of [checkRateLimit]
    take no part in the admission decision: for the same request, oracle
    readings and store, any two choices of them give the same verdict, the
    same [X-RateLimit-Remaining] and [X-RateLimit-Reset], the same error
    response up to the text of [X-RateLimit-Limit], and the same resulting
    store, which is the one produced by the module-level limiter built with
    100 requests per 60000 ms; [maxRequests] is only printed into
    [X-RateLimit-Limit], and [windowMs] is not used at all, so the worker's
    900000 ms enforce the same 60-second window. *)
Theorem checkRateLimit_arguments_irrelevant request m1 w1 m2 w2 o requests :
  let r1 := checkRateLimit request m1 w1 o requests in
  let r2 := checkRateLimit request m2 w2 o requests in
  decision r1.1 = decision r2.1
  ∧ (∀ name, toLowerCase name ≠ toLowerCase "X-RateLimit-Limit" →
       headers_get (rc_headers r1.1) name = headers_get (rc_headers r2.1) name)
  ∧ r1.2 = r2.2
  ∧ r1.2 = (isAllowed {| maxRequests := 100; windowMs := 60000 |}
              request (now_check o) (swept o requests)).2
  ∧ rc_allowed r1.1
    = allowed (isAllowed {| maxRequests := 100; windowMs := 60000 |}
                 request (now_check o) (swept o requests)).1
  ∧ headers_get (rc_headers r1.1) "X-RateLimit-Limit" = Some (toString (default 100 m1))
  ∧ checkRateLimit request m1 w1 o requests = checkRateLimit request m1 w2 o requests
  ∧ checkRateLimit request (Some 100) (Some (15 * 60 * 1000)) o requests
    = checkRateLimit request (Some 100) (Some 60000) o requests.
Proof.
  intros r1 r2. subst r1 r2.
  destruct (checkRateLimit_decision request m1 w1 o requests) as [Hd1 Hs1].
  destruct (checkRateLimit_decision request m2 w2 o requests) as [Hd2 Hs2].
  split; [by rewrite Hd1, Hd2|]. split.
  { intros name Hname. apply without_limit_agree; [|done].
    apply (f_equal (fun d => d.2)) in Hd1, Hd2. simpl in Hd1, Hd2. congruence. }
  split; [by rewrite Hs1, Hs2|].
  split; [exact Hs1|]. split.
  { apply (f_equal (fun d => d.1.1)) in Hd1. exact Hd1. }
  split; [|split; reflexivity].
  unfold checkRateLimit.
  destruct (isAllowed rateLimiter request (now_check o) _) as [v requests2].
  destruct (allowed v), (v_resetAt v =? 0); simpl;
    unfold headers_get, headers_set; lower_names;
    rewrite ?lookup_insert_ne by done; apply lookup_insert_eq.
Qed.

(** ** Bounds on the counters *)

Section Bounds.
Variable this : RateLimiter.t.
Hypothesis Hmax : 1 ≤ maxRequests this.

Local Abbreviation bounded := (bounded this).

Lemma bounded_empty : bounded ∅.
Proof. intros id record H. by rewrite lookup_empty in H. Qed.

Lemma bounded_insert id record requests :
  bounded requests → 1 ≤ count record ≤ maxRequests this →
  bounded (<[id := record]> requests).
Proof.
  intros Hb Hc id' record' H. destruct (decide (id = id')) as [->|Hne].
  - rewrite lookup_insert_eq in H. by injection H as <-.
  - rewrite lookup_insert_ne in H by done. eauto.
Qed.

Lemma isAllowed_bounded request now requests :
  bounded requests → bounded (isAllowed this request now requests).2.
Proof.
  intros Hb. unfold isAllowed.
  destruct (requests !! getClientId request) as [record|] eqn:E; simpl.
  - destruct (resetAt record <? now); simpl.
    { apply bounded_insert; simpl; [done|lia]. }
    destruct (maxRequests this <=? count record) eqn:El; simpl; [done|].
    apply Z.leb_gt in El. apply bounded_insert; [done|]. simpl.
    specialize (Hb _ _ E). lia.
  - apply bounded_insert; simpl; [done|lia].
Qed.

Lemma isAllowed_remaining_nonneg request now requests :
  0 ≤ remaining (isAllowed this request now requests).1.
Proof.
  unfold isAllowed.
  destruct (requests !! getClientId request) as [record|]; simpl; [|lia].
  destruct (resetAt record <? now); simpl; [lia|].
  destruct (maxRequests this <=? count record) eqn:El; simpl; [lia|].
  apply Z.leb_gt in El. lia.
Qed.

Lemma cleanup_bounded now requests : bounded requests → bounded (cleanup now requests).
Proof.
  intros Hb id record H. rewrite cleanup_lookup in H.
  destruct (requests !! id) as [r|] eqn:E; [|done].
  case_decide; [done|]. injection H as <-. eauto.
Qed.

Lemma run_bounded events : ∀ requests,
  bounded requests →
  bounded (run this events requests).2
  ∧ Forall (fun v => 0 ≤ remaining v) (run this events requests).1.
Proof.
  induction events as [|[request now|now] rest IH]; intros requests Hb; simpl.
  - split; [done|constructor].
  - pose proof (isAllowed_bounded request now requests Hb) as Hb'.
    pose proof (isAllowed_remaining_nonneg request now requests) as Hr.
    destruct (isAllowed this request now requests) as [v requests'].
    destruct (IH requests' Hb') as [IH1 IH2].
    destruct (run this rest requests') as [vs final]. simpl in *.
    split; [done|]. by constructor.
  - apply IH. by apply cleanup_bounded.
Qed.

End Bounds.

(** Events that are not calls of [id] leave its entry alone or, when a
    sweep finds it expired, remove it. *)
Lemma run_foreign this id events : ∀ requests,
  Forall (foreign id) events →
  (run this events requests).2 !! id = requests !! id
  ∨ (run this events requests).2 !! id = None.
Proof.
  induction events as [|[request now|now] rest IH]; intros requests Hf; simpl.
  - by left.
  - inversion Hf as [|? ? Hne Hrest]; subst. simpl in Hne.
    pose proof (isAllowed_frame this request now requests id Hne) as Hfr.
    destruct (isAllowed this request now requests) as [v requests']. simpl in Hfr.
    specialize (IH requests' Hrest).
    destruct (run this rest requests') as [vs final]. simpl in *.
    rewrite <- Hfr. exact IH.
  - inversion Hf as [|? ? _ Hrest]; subst.
    destruct (IH (cleanup now requests) Hrest) as [IH'|IH']; [|by right].
    rewrite IH', cleanup_lookup.
    destruct (requests !! id) as [record|]; [|by left].
    case_decide; [by right|by left].
Qed.


(** What an admitted request stores and reports. *)
Lemma isAllowed_accepted this request now requests :
  allowed (isAllowed this request now requests).1 = true →
  ∃ record,
    (isAllowed this request now requests).2 !! getClientId request = Some record
    ∧ remaining (isAllowed this request now requests).1
      = maxRequests this - count record
    ∧ v_resetAt (isAllowed this request now requests).1 = resetAt record.
Proof.
  unfold isAllowed.
  destruct (requests !! getClientId request) as [record|]; simpl.
  - destruct (resetAt record <? now); simpl.
    { intros _. eexists. rewrite lookup_insert_eq. by split. }
    destruct (maxRequests this <=? count record); simpl; [done|].
    intros _. eexists. rewrite lookup_insert_eq. by split.
  - intros _. eexists. rewrite lookup_insert_eq. by split.
Qed.

(** What an admitted request reports when it does not open a window. *)
Lemma isAllowed_continued this request now requests record :
  requests !! getClientId request = Some record →
  ¬ opens_window requests (getClientId request) now →
  allowed (isAllowed this request now requests).1 = true →
  remaining (isAllowed this request now requests).1
    = maxRequests this - count record - 1
  ∧ 0 ≤ remaining (isAllowed this request now requests).1
  ∧ v_resetAt (isAllowed this request now requests).1 = resetAt record.
Proof.
  unfold opens_window, isAllowed. intros -> Hw.
  apply Z.nlt_ge, Z.ltb_ge in Hw. rewrite Hw.
  destruct (maxRequests this <=? count record) eqn:El; simpl; [done|].
  apply Z.leb_gt in El. intros _. lia.
Qed.

(** C5.  Along every sequence of calls and sweeps that starts from the
    empty table, every stored window has [count ≤ maxRequests] (and at
    least 1), every verdict reports [remaining ≥ 0], and of two successive
    admitted requests of a client of which the second stays in the window
    of the first, the second reports exactly one less [remaining]. *)
Theorem counter_bounded_and_remaining_decreases
    (this : RateLimiter.t) (Hmax : 1 ≤ maxRequests this) (events : list Event) :
  let reached := run this events ∅ in
  (∀ id record, reached.2 !! id = Some record →
     1 ≤ count record ≤ maxRequests this)
  ∧ Forall (fun v => 0 ≤ remaining v) reached.1
  ∧ (∀ request1 now1 between request2 now2,
       getClientId request2 = getClientId request1 →
       Forall (foreign (getClientId request1)) between →
       let first := isAllowed this request1 now1 reached.2 in
       let later := (run this between first.2).2 in
       let second := isAllowed this request2 now2 later in
       allowed first.1 = true →
       allowed second.1 = true →
       ¬ opens_window later (getClientId request1) now2 →
       remaining second.1 = remaining first.1 - 1
       ∧ 0 ≤ remaining second.1
       ∧ v_resetAt second.1 = v_resetAt first.1).
Proof.
  intros reached. subst reached.
  destruct (run_bounded this Hmax events ∅ (bounded_empty this)) as [Hb Hr].
  split; [exact Hb|]. split; [exact Hr|].
  intros request1 now1 between request2 now2 Hid Hforeign first later second.
  subst first later second. intros Hfirst Hsecond Hwindow.
  destruct (isAllowed_accepted this request1 now1 _ Hfirst)
    as (record & Hstored & Hrem & Hreset).
  destruct (run_foreign this (getClientId request1) between
              (isAllowed this request1 now1 (run this events ∅).2).2 Hforeign)
    as [Hkept|Hgone].
  - rewrite Hstored in Hkept. rewrite <- Hid in Hkept, Hwindow.
    destruct (isAllowed_continued this request2 now2 _ record Hkept Hwindow Hsecond)
      as (H1 & H2 & H3).
    rewrite Hrem, Hreset. split; [lia|]. split; [exact H2|exact H3].
  - exfalso. apply Hwindow. unfold opens_window. by rewrite Hgone.
Qed.

Lemma counter_bounded_and_remaining_decreases_witness :
  Forall (fun v => 0 ≤ remaining v)
    (run rateLimiter
       [Call (request_from "203.0.113.7") 0; Sweep 10;
        Call (request_from "203.0.113.7") 20] ∅).1
  ∧ remaining
      (isAllowed rateLimiter (request_from "203.0.113.7") 20
         (run rateLimiter [Sweep 10; Call (request_from "198.51.100.2") 15]
            (isAllowed rateLimiter (request_from "203.0.113.7") 0 ∅).2).2).1
    = remaining (isAllowed rateLimiter (request_from "203.0.113.7") 0 ∅).1 - 1.
Proof.
  assert (Hmax : 1 ≤ maxRequests rateLimiter) by (vm_compute; discriminate).
  split.
  - exact (proj1 (proj2 (counter_bounded_and_remaining_decreases rateLimiter Hmax
             [Call (request_from "203.0.113.7") 0; Sweep 10;
              Call (request_from "203.0.113.7") 20]))).
  - refine (proj1 (proj2 (proj2 (counter_bounded_and_remaining_decreases
                                   rateLimiter Hmax []))
                     (request_from "203.0.113.7") 0
                     [Sweep 10; Call (request_from "198.51.100.2") 15]
                     (request_from "203.0.113.7") 20 _ _ _ _ _)).
    + reflexivity.
    + repeat constructor. vm_compute. discriminate.
    + reflexivity.
    + reflexivity.
    + vm_compute. intros H. discriminate H.
Defined.

(** ** Isolation between clients *)



Lemma checkRateLimit_store request maxRequests windowMs o requests :
  (checkRateLimit request maxRequests windowMs o requests).2
  = (isAllowed rateLimiter request (now_check o) (swept o requests)).2.
Proof. apply checkRateLimit_decision. Qed.









(** ** Size strings *)

Lemma app_cons c a b : String c a +:+ b = String c (a +:+ b).
Proof. reflexivity. Qed.

Lemma app_nil b : "" +:+ b = b.
Proof. reflexivity. Qed.

Lemma span_app p s : (span p s).1 +:+ (span p s).2 = s.
Proof.
  induction s as [|c s IH]; simpl; [done|].
  destruct (p c); simpl; [by rewrite app_cons, IH|done].
Qed.

Lemma span_all p s : all p (span p s).1 = true.
Proof.
  induction s as [|c s IH]; simpl; [done|].
  destruct (p c) eqn:E; simpl; [by rewrite E|done].
Qed.

Lemma span_stops p s : stops p (span p s).2.
Proof.
  induction s as [|c s IH]; simpl; [done|].
  destruct (p c) eqn:E; simpl; done.
Qed.





Lemma is_empty_true s : is_empty s = true ↔ s = "".
Proof. destruct s; simpl; split; congruence. Qed.

Lemma is_empty_false s : is_empty s = false ↔ s ≠ "".
Proof. destruct s; simpl; split; congruence. Qed.









Lemma span_eq p s a b :
  span p s = (a, b) → s = a +:+ b ∧ all p a = true ∧ stops p b.
Proof.
  intros E. pose proof (span_app p s) as H1. pose proof (span_all p s) as H2.
  pose proof (span_stops p s) as H3. rewrite E in H1, H2, H3. simpl in *. done.
Qed.





(** The one letter suffix that reaches [Object.prototype]: the product is
    not a number, and nothing is thrown. *)
Lemma parseSize_constructor : parseSize "10constructor" = Ok NaN.
Proof. reflexivity. Qed.




(** ** SizeGuard *)

Lemma parseInt10_empty : parseInt10 "" = NaN.
Proof. reflexivity. Qed.

(** [checkBodySizeLimit] in terms of the declared length. *)
Lemma checkBodySizeLimit_cases request limit :
  checkBodySizeLimit request limit =
    match declared_length request with
    | NaN =>
        if truthy (headers_get (req_headers request) "Content-Length") then
          match parseSize limit with
          | Throw msg => Throw msg
          | Ok _ => Ok {| valid := true; error := None |}
          end
        else Ok {| valid := true; error := None |}
    | Num n =>
        match parseSize limit with
        | Throw msg => Throw msg
        | Ok NaN => Ok {| valid := true; error := None |}
        | Ok (Num L) =>
            if L <? n then
              Ok {| valid := false; error := Some (payload_too_large n L) |}
            else Ok {| valid := true; error := None |}
        end
    end.
Proof.
  unfold checkBodySizeLimit, declared_length, headers_get. lower_names.
  destruct (req_headers request !! "content-length") as [s|]; simpl; [|done].
  destruct (is_empty s) eqn:Es; simpl.
  { apply is_empty_true in Es as ->. by rewrite parseInt10_empty. }
  destruct (parseInt10 s) as [|n]; simpl.
  - by destruct (parseSize limit) as [[|L]|msg].
  - by destruct (parseSize limit) as [[|L]|msg].
Qed.



(** ** SecurityHeaderPolicy and the worker *)

Lemma addSecurityHeaders_sets response :
  Forall (fun nv => headers_get (headers (addSecurityHeaders response)) nv.1 = Some nv.2)
    security_headers.
Proof.
  unfold addSecurityHeaders, rewrap, security_headers, headers_get, headers_set.
  simpl. lower_names.
  repeat constructor; simpl; rewrite ?lookup_insert_ne by done; apply lookup_insert_eq.
Qed.

Lemma addSecurityHeaders_keeps response :
  status (addSecurityHeaders response) = status response
  ∧ statusText (addSecurityHeaders response) = statusText response
  ∧ body (addSecurityHeaders response) = body response
  ∧ ∀ name, toLowerCase name ∉ (toLowerCase <$> security_headers.*1) →
      headers_get (headers (addSecurityHeaders response)) name
      = headers_get (headers response) name.
Proof.
  repeat (split; [reflexivity|]). intros name Hname.
  unfold addSecurityHeaders, rewrap, headers_get, headers_set. simpl. lower_names.
  unfold security_headers in Hname. simpl in Hname. lower_names.
  rewrite !lookup_insert_ne; [done|..];
    intros Heq; apply Hname; rewrite <- Heq; set_solver.
Qed.

Lemma addCORSHeaders_keeps_security response request allowedOrigin :
  Forall (fun nv => headers_get (headers response) nv.1 = Some nv.2) security_headers →
  Forall (fun nv =>
            headers_get (headers (addCORSHeaders response request allowedOrigin)) nv.1
            = Some nv.2) security_headers.
Proof.
  intros H. unfold addCORSHeaders.
  destruct (origin_matches _ allowedOrigin); [|exact H].
  unfold security_headers in *.
  repeat match goal with
         | H : Forall _ (_ :: _) |- _ => apply Forall_cons in H as [? H]
         end.
  unfold rewrap, headers_get, headers_set in *. simpl in *. lower_names.
  repeat constructor; simpl; rewrite !lookup_insert_ne by done; assumption.
Qed.

(** With the worker's options the gate never throws. *)
Lemma applyMiddleware_worker request o requests :
  ∃ result, (applyMiddleware request worker_options o requests).1 = Ok result.
Proof.
  unfold applyMiddleware. simpl default. rewrite checkBodySizeLimit_cases.
  change (parseSize "10mb") with (Ok (Num 10485760)).
  destruct (declared_length request) as [|n].
  - assert (Hpass : (if truthy (headers_get (req_headers request) "Content-Length")
                     then Ok {| valid := true; error := None |}
                     else Ok {| valid := true; error := None |})
                    = Ok {| valid := true; error := None |})
      by (by destruct (truthy _)).
    rewrite Hpass. simpl.
    destruct (checkRateLimit request _ _ o requests) as [rateCheck requests'].
    destruct (rc_allowed rateCheck); simpl; eauto.
  - destruct (10485760 <? n); simpl; [eauto|].
    destruct (checkRateLimit request _ _ o requests) as [rateCheck requests'].
    destruct (rc_allowed rateCheck); simpl; eauto.
Qed.

(** Every response to a request that is not a preflight, be it the
    downstream one or a 413 or 429 of the gate, has been through
    [addSecurityHeaders] and then [addCORSHeaders], and carries the fixed
    security headers. *)
Lemma fetch_decorates_non_preflight requestHandler request env o requests :
  method request ≠ "OPTIONS" →
  ∃ inner,
    (fetch requestHandler request env o requests).1
    = Ok (addCORSHeaders (addSecurityHeaders inner) request
            (or_default (FRONTEND_URL env) "http://localhost:5173"))
    ∧ ∀ response, (fetch requestHandler request env o requests).1 = Ok response →
        Forall (fun nv => headers_get (headers response) nv.1 = Some nv.2)
          security_headers.
Proof.
  intros Hm. unfold fetch, handleCORS. apply String.eqb_neq in Hm. rewrite Hm.
  cbn [isPreflight].
  destruct (applyMiddleware_worker request o requests) as [result Hres].
  destruct (applyMiddleware request worker_options o requests) as [r requests'].
  simpl in Hres. subst r.
  destruct (mw_error result) as [err|]; simpl.
  - exists err. split; [done|]. intros response [= <-].
    apply addCORSHeaders_keeps_security, addSecurityHeaders_sets.
  - eexists. split; [done|]. intros response [= <-].
    apply addCORSHeaders_keeps_security, addSecurityHeaders_sets.
Qed.

(** A preflight request is answered with the response of [handleCORS],
    untouched, and the limiter is not consulted. *)
Lemma fetch_preflight_returned_as_built requestHandler request env o requests :
  method request = "OPTIONS" →
  ∃ response,
    fetch requestHandler request env o requests = (Ok response, requests)
    ∧ preflightResponse
        (handleCORS request (or_default (FRONTEND_URL env) "http://localhost:5173"))
      = Some response
    ∧ Forall (fun nv => headers_get (headers response) nv.1 = None) security_headers.
Proof.
  intros Hm. unfold fetch, handleCORS. apply String.eqb_eq in Hm. rewrite Hm.
  destruct (origin_matches _ _); simpl; eexists;
    (split; [reflexivity|]); (split; [reflexivity|]);
    repeat constructor; reflexivity.
Qed.

(** C1 at its failing inputs.  The answer of [fetch] to a preflight
    request, the 204 for the allowed origin as well as the 403 for any
    other, is returned as [handleCORS] built it: it carries none of the
    seven security headers, and has not been through [addCORSHeaders]
    (no [Vary]). *)
Theorem fetch_preflight_without_security_headers
    (requestHandler : Request -> Response) (o : Oracle) (requests : Store) :
  (∃ response,
     fetch requestHandler (request_with_origin "OPTIONS" "https://app.example")
       {| FRONTEND_URL := Some "https://app.example" |} o requests
     = (Ok response, requests)
     ∧ status response = 204
     ∧ Forall (fun nv => headers_get (headers response) nv.1 = None) security_headers
     ∧ headers_get (headers response) "Vary" = None)
  ∧ (∃ response,
     fetch requestHandler (request_with_origin "OPTIONS" "https://evil.example")
       {| FRONTEND_URL := Some "https://app.example" |} o requests
     = (Ok response, requests)
     ∧ status response = 403
     ∧ Forall (fun nv => headers_get (headers response) nv.1 = None) security_headers).
Proof.
  split; eexists; (split; [reflexivity|]); repeat split;
    repeat constructor; reflexivity.
Qed.

(** * Further properties of the gate *)

(** ** The quota of a window *)

Lemma run_call this request now rest requests :
  run this (Call request now :: rest) requests
  = ((isAllowed this request now requests).1
       :: (run this rest (isAllowed this request now requests).2).1,
     (run this rest (isAllowed this request now requests).2).2).
Proof.
  change (run this (Call request now :: rest) requests)
    with (let '(v, requests') := isAllowed this request now requests in
          let '(vs, final) := run this rest requests' in (v :: vs, final)).
  destruct (isAllowed this request now requests) as [v requests']. cbn [fst snd].
  by destruct (run this rest requests') as [vs final].
Qed.

Lemma run_in_window this reset later : ∀ requests id made,
  0 ≤ made →
  requests !! id = Some {| count := Z.min made (maxRequests this); resetAt := reset |} →
  Forall (fun c => getClientId c.1 = id ∧ c.2 ≤ reset) later →
  (run this (call_of <$> later) requests).1
  = imap (fun i _ => verdict_after this reset (made + Z.of_nat i)) later
  ∧ (run this (call_of <$> later) requests).2 !! id
    = Some {| count := Z.min (made + Z.of_nat (length later)) (maxRequests this);
              resetAt := reset |}.
Proof.
  induction later as [|[request t] rest IH]; intros requests id made Hmade Hst Hall.
  - simpl. split; [reflexivity|]. rewrite Hst. f_equal. f_equal. lia.
  - inversion Hall as [|? ? [Hid Ht] Hrest]; subst. cbn [fst snd] in *.
    rewrite fmap_cons. unfold call_of at 1 3. cbn [fst snd]. rewrite run_call.
    cbn [fst snd]. rewrite imap_cons.
    destruct (Z_lt_le_dec made (maxRequests this)) as [Hlt|Hge].
    + rewrite (isAllowed_counted this request t requests
                 {| count := Z.min made (maxRequests this); resetAt := reset |})
        by (simpl; (done || lia)).
      cbn [count resetAt fst snd].
      destruct (IH (<[getClientId request :=
                       {| count := Z.min made (maxRequests this) + 1;
                          resetAt := reset |}]> requests)
                  (getClientId request) (made + 1)) as [IH1 IH2]; [lia| |done|].
      { rewrite lookup_insert_eq. do 2 f_equal. lia. }
      rewrite IH1, IH2. split.
      * f_equal.
        -- unfold verdict_after. rewrite (proj2 (Z.ltb_lt _ _)) by lia.
           f_equal; lia.
        -- apply imap_ext. intros i x _. simpl. f_equal. lia.
      * do 2 f_equal. simpl length. lia.
    + rewrite (isAllowed_denied this request t requests
                 {| count := Z.min made (maxRequests this); resetAt := reset |})
        by (simpl; (done || lia)).
      cbn [count resetAt fst snd].
      destruct (IH requests (getClientId request) (made + 1)) as [IH1 IH2];
        [lia| |done|].
      { rewrite Hst. do 2 f_equal. lia. }
      rewrite IH1, IH2. split.
      * f_equal.
        -- unfold verdict_after. rewrite (proj2 (Z.ltb_ge _ _)) by lia. done.
        -- apply imap_ext. intros i x _. simpl. f_equal. lia.
      * do 2 f_equal. simpl length. lia.
Qed.

(** X1.  A client whose first request opens a window gets exactly
    [maxRequests] requests through in it: of the requests it makes until
    the window ends, the one with index [i] (from 0) is let through with
    [remaining = maxRequests - i - 1] as long as [i < maxRequests], and
    every later one is denied with [remaining = 0]; all report the same
    [resetAt], and the stored count stops at [maxRequests]. *)
Theorem quota_of_a_window (this : RateLimiter.t) request t0 later requests :
  1 ≤ maxRequests this →
  opens_window requests (getClientId request) t0 →
  Forall (fun c => getClientId c.1 = getClientId request
                   ∧ c.2 ≤ t0 + windowMs this) later →
  (run this (call_of <$> (request, t0) :: later) requests).1
  = imap (fun i _ => verdict_after this (t0 + windowMs this) (Z.of_nat i))
      ((request, t0) :: later)
  ∧ (run this (call_of <$> (request, t0) :: later) requests).2 !! getClientId request
    = Some {| count := Z.min (Z.of_nat (S (length later))) (maxRequests this);
              resetAt := t0 + windowMs this |}.
Proof.
  intros Hmax Hopen Hall. rewrite fmap_cons. unfold call_of at 1 3.
  cbn [fst snd]. rewrite run_call. cbn [fst snd]. rewrite imap_cons.
  rewrite (isAllowed_fresh this request t0 requests Hopen). cbn [fst snd].
  destruct (run_in_window this (t0 + windowMs this) later
              (<[getClientId request :=
                   {| count := 1; resetAt := t0 + windowMs this |}]> requests)
              (getClientId request) 1) as [H1 H2]; [lia| |done|].
  { rewrite lookup_insert_eq. do 2 f_equal. lia. }
  rewrite H1, H2. split.
  - f_equal.
    + unfold verdict_after. rewrite (proj2 (Z.ltb_lt _ _)) by lia. f_equal; lia.
    + apply imap_ext. intros i x _. simpl. f_equal. lia.
  - do 2 f_equal. simpl length. lia.
Qed.

Lemma quota_of_a_window_witness :
  (run scenario_limiter
     (call_of <$> [(request_from "203.0.113.7", 0); (request_from "203.0.113.7", 100);
                   (request_from "203.0.113.7", 400)]) ∅).1
  = [ {| allowed := true; remaining := 1; v_resetAt := 1000 |};
      {| allowed := true; remaining := 0; v_resetAt := 1000 |};
      {| allowed := false; remaining := 0; v_resetAt := 1000 |} ].
Proof.
  refine (proj1 (quota_of_a_window scenario_limiter (request_from "203.0.113.7") 0
                   [(request_from "203.0.113.7", 100); (request_from "203.0.113.7", 400)]
                   ∅ _ _ _)).
  - vm_compute. discriminate.
  - exact I.
  - repeat constructor; vm_compute; discriminate.
Defined.

(** ** The sweep *)

(** X2.  [cleanup] keeps exactly the entries that have not expired, each
    as it was; nothing is added, the table does not grow, a second sweep
    at the same time changes nothing, and a sweep followed by a later one
    amounts to the later one alone. *)
Theorem cleanup_keeps_unexpired (now : Z) (requests : Store) :
  (∀ id record,
     cleanup now requests !! id = Some record
     ↔ requests !! id = Some record ∧ now ≤ resetAt record)
  ∧ (size (cleanup now requests) ≤ size requests)%nat
  ∧ cleanup now (cleanup now requests) = cleanup now requests
  ∧ (∀ later, now ≤ later →
       cleanup later (cleanup now requests) = cleanup later requests).
Proof.
  split; [|split; [|split]].
  - intros id record. rewrite cleanup_lookup.
    destruct (requests !! id) as [r|]; [|split; [done|by intros [? _]]].
    case_decide as Hd; split.
    + done.
    + intros [[= <-] Hle]. lia.
    + intros [= <-]. split; [done|lia].
    + by intros [Hr _].
  - unfold cleanup. apply map_subseteq_size, map_filter_subseteq.
  - apply map_eq. intros id. rewrite !cleanup_lookup.
    destruct (requests !! id) as [r|]; [|done].
    destruct (decide (resetAt r < now)); simpl; [done|]. by rewrite decide_False.
  - intros later Hle. apply map_eq. intros id. rewrite !cleanup_lookup.
    destruct (requests !! id) as [r|]; [|done].
    destruct (decide (resetAt r < now)), (decide (resetAt r < later)); simpl;
      rewrite ?decide_True, ?decide_False by done; first [done | exfalso; lia].
Qed.

(** X3.  The sweep is invisible to the clients: a request checked at a
    time not earlier than the sweep gets the verdict it would have got
    without the sweep, and leaves the same record behind for its client. *)
Theorem cleanup_transparent (this : RateLimiter.t) request now t requests :
  now ≤ t →
  (isAllowed this request t (cleanup now requests)).1
  = (isAllowed this request t requests).1
  ∧ (isAllowed this request t (cleanup now requests)).2 !! getClientId request
    = (isAllowed this request t requests).2 !! getClientId request.
Proof.
  intros Hle.
  pose proof (cleanup_lookup now requests (getClientId request)) as Hc.
  destruct (requests !! getClientId request) as [record|] eqn:E.
  - destruct (decide (resetAt record < now)) as [Hexp|Hlive].
    + rewrite (isAllowed_fresh this request t (cleanup now requests))
        by (unfold opens_window; by rewrite Hc).
      rewrite (isAllowed_fresh this request t requests)
        by (unfold opens_window; rewrite E; lia).
      simpl. by rewrite !lookup_insert_eq.
    + unfold isAllowed. rewrite Hc, E.
      destruct (resetAt record <? t); simpl; [by rewrite !lookup_insert_eq|].
      destruct (maxRequests this <=? count record); simpl.
      * by rewrite Hc, E.
      * by rewrite !lookup_insert_eq.
  - unfold isAllowed. rewrite Hc, E. simpl. by rewrite !lookup_insert_eq.
Qed.

Lemma cleanup_transparent_witness :
  (isAllowed rateLimiter (request_from "198.51.100.2") 2500
     (cleanup 2000 expired_table)).1
  = (isAllowed rateLimiter (request_from "198.51.100.2") 2500 expired_table).1.
Proof.
  refine (proj1 (cleanup_transparent rateLimiter (request_from "198.51.100.2")
                   2000 2500 expired_table _)).
  vm_compute. discriminate.
Defined.

(** ** Client identity *)

(** X4.  When the edge supplies a non-empty [CF-Connecting-IP], it alone
    identifies the client: two requests with the same address are counted
    against the same window whatever their method, body, user agent or
    origin, so the limiter answers both alike. *)
Theorem same_address_same_bucket (this : RateLimiter.t) request1 request2 ip now requests :
  ip ≠ "" →
  headers_get (req_headers request1) "CF-Connecting-IP" = Some ip →
  headers_get (req_headers request2) "CF-Connecting-IP" = Some ip →
  getClientId request1 = ip
  ∧ getClientId request2 = ip
  ∧ isAllowed this request1 now requests = isAllowed this request2 now requests.
Proof.
  intros Hne H1 H2.
  assert (Hid : ∀ request,
            headers_get (req_headers request) "CF-Connecting-IP" = Some ip →
            getClientId request = ip).
  { intros request H. unfold getClientId, headers_get in *. lower_names.
    rewrite H. simpl. apply is_empty_false in Hne. by rewrite Hne. }
  split; [by apply Hid|]. split; [by apply Hid|].
  unfold isAllowed. by rewrite (Hid _ H1), (Hid _ H2).
Qed.

Lemma same_address_same_bucket_witness :
  isAllowed rateLimiter (request_from_agent "203.0.113.7" "curl/8.0" "https://a.example")
    1000 running_table
  = isAllowed rateLimiter (request_from "203.0.113.7") 1000 running_table.
Proof.
  refine (proj2 (proj2 (same_address_same_bucket rateLimiter
                          (request_from_agent "203.0.113.7" "curl/8.0" "https://a.example")
                          (request_from "203.0.113.7") "203.0.113.7" 1000
                          running_table _ _ _))).
  - discriminate.
  - reflexivity.
  - reflexivity.
Defined.

(** ** The 429 response *)

Lemma ceil_div_1000_bounds x :
  x ≤ 1000 * ceil_div_1000 x < x + 1000.
Proof.
  unfold ceil_div_1000.
  pose proof (Z.div_mod (- x) 1000 ltac:(lia)) as Hdm.
  pose proof (Z.mod_pos_bound (- x) 1000 ltac:(lia)) as Hb. lia.
Qed.

(** A denial leaves the table as the sweep left it, and its response is a 429. *)
Lemma denial_response_facts request m w o requests response :
  rc_error (checkRateLimit request m w o requests).1 = Some response →
  rc_allowed (checkRateLimit request m w o requests).1 = false
  ∧ (checkRateLimit request m w o requests).2 = swept o requests
  ∧ status response = 429.
Proof.
  unfold checkRateLimit. fold (swept o requests).
  destruct (swept o requests !! getClientId request) as [record|] eqn:E.
  - destruct (Z_lt_le_dec (resetAt record) (now_check o)) as [Hexp|Hlive].
    { rewrite isAllowed_fresh by (unfold opens_window; by rewrite E). done. }
    destruct (Z_lt_le_dec (count record) (maxRequests rateLimiter)) as [Hlt|Hge].
    { by rewrite (isAllowed_counted rateLimiter request _ _ record). }
    rewrite (isAllowed_denied rateLimiter request _ _ record) by done.
    cbn [allowed remaining v_resetAt negb rc_error rc_allowed fst snd].
    by intros [= <-].
  - rewrite isAllowed_fresh by (unfold opens_window; by rewrite E). done.
Qed.

(** The limit and the remaining count shown on a denial. *)
Lemma denial_response_headers request m w o requests response :
  rc_error (checkRateLimit request m w o requests).1 = Some response →
  headers_get (headers response) "X-RateLimit-Limit" = Some (toString (default 100 m))
  ∧ headers_get (headers response) "X-RateLimit-Remaining" = Some "0".
Proof.
  unfold checkRateLimit. fold (swept o requests).
  destruct (isAllowed rateLimiter request (now_check o) (swept o requests))
    as [v requests2] eqn:Ev.
  destruct (allowed v) eqn:Ea; cbn [negb rc_error fst]; [done|].
  assert (Hrem : remaining v = 0).
  { revert Ev. unfold isAllowed.
    destruct (swept o requests !! getClientId request) as [record|].
    - destruct (resetAt record <? now_check o); [intros [= <- _]; done|].
      destruct (maxRequests rateLimiter <=? count record); intros [= <- _]; done.
    - intros [= <- _]. done. }
  rewrite Hrem. intros [= <-].
  unfold Response_json, with_content_type. cbn [headers].
  unfold headers_get, headers_set. lower_names.
  split; destruct (v_resetAt v =? 0);
    rewrite ?lookup_insert_ne by done; rewrite lookup_empty;
    rewrite ?lookup_insert_ne by done; apply lookup_insert_eq.
Qed.

(** X5.  [checkRateLimit] builds an error response only for a client whose
    stored window is still running with its quota used up.  The response
    is a 429 with the JSON error body; it reports [X-RateLimit-Remaining: 0],
    the limit argument, the end of the window, and in [Retry-After] the
    whole seconds (rounded up) from the later clock reading to the end of
    the window.  The denied request leaves the table as the sweep left it,
    and a request of the same client that comes later than the advertised
    delay opens a fresh window and is let through. *)
Theorem denial_response request m w o requests response :
  rc_error (checkRateLimit request m w o requests).1 = Some response →
  ∃ record,
    swept o requests !! getClientId request = Some record
    ∧ now_check o ≤ resetAt record
    ∧ maxRequests rateLimiter ≤ count record
    ∧ rc_allowed (checkRateLimit request m w o requests).1 = false
    ∧ (checkRateLimit request m w o requests).2 = swept o requests
    ∧ status response = 429
    ∧ body response
      = BodyJson [("error", "Too many requests");
                  ("message", "Rate limit exceeded. Please try again later.")]
    ∧ headers_get (headers response) "Content-Type" = Some "application/json"
    ∧ headers_get (headers response) "X-RateLimit-Limit"
      = Some (toString (default 100 m))
    ∧ headers_get (headers response) "X-RateLimit-Remaining" = Some "0"
    ∧ (resetAt record ≠ 0 →
       headers_get (headers response) "X-RateLimit-Reset"
       = Some (toISOString (resetAt record)))
    ∧ headers_get (headers response) "Retry-After"
      = Some (toString (ceil_div_1000 (resetAt record - now_retry o)))
    ∧ resetAt record
      ≤ now_retry o + 1000 * ceil_div_1000 (resetAt record - now_retry o)
      < resetAt record + 1000
    ∧ ∀ request' t,
        getClientId request' = getClientId request →
        now_retry o + 1000 * ceil_div_1000 (resetAt record - now_retry o) < t →
        (isAllowed rateLimiter request' t (checkRateLimit request m w o requests).2).1
        = {| allowed := true; remaining := 99; v_resetAt := t + 60000 |}.
Proof.
  unfold checkRateLimit. fold (swept o requests).
  destruct (swept o requests !! getClientId request) as [record|] eqn:E.
  - destruct (Z_lt_le_dec (resetAt record) (now_check o)) as [Hexp|Hlive].
    { rewrite isAllowed_fresh by (unfold opens_window; by rewrite E). done. }
    destruct (Z_lt_le_dec (count record) (maxRequests rateLimiter)) as [Hlt|Hge].
    { by rewrite (isAllowed_counted rateLimiter request _ _ record). }
    rewrite (isAllowed_denied rateLimiter request _ _ record) by done.
    cbn [allowed remaining v_resetAt negb rc_error rc_allowed fst snd].
    intros [= <-]. exists record.
    pose proof (ceil_div_1000_bounds (resetAt record - now_retry o)) as Hceil.
    repeat (split; [done|]).
    assert (Hhdr : ∀ name value (h : Headers),
              h !! toLowerCase name = Some value →
              toLowerCase name ≠ "content-type" → toLowerCase name ≠ "retry-after" →
              headers_get
                (headers
                   (Response_json
                      [("error", "Too many requests");
                       ("message", "Rate limit exceeded. Please try again later.")]
                      429
                      (headers_set "Retry-After"
                         (toString (ceil_div_1000 (resetAt record - now_retry o))) h)))
                name = Some value).
    { intros name value h Hh Hct Hra. unfold Response_json, with_content_type.
      cbn [headers]. unfold headers_get, headers_set. lower_names.
      destruct (<["retry-after":=_]> h !! "content-type");
        rewrite ?lookup_insert_ne by done; done. }
    split.
    { unfold Response_json, with_content_type. cbn [headers].
      unfold headers_get, headers_set. lower_names.
      destruct (resetAt record =? 0);
        rewrite ?lookup_insert_ne by done; rewrite lookup_empty;
        apply lookup_insert_eq. }
    split.
    { apply Hhdr; [|lower_names; done..]. unfold headers_set. lower_names.
      destruct (resetAt record =? 0);
        rewrite ?lookup_insert_ne by done; apply lookup_insert_eq. }
    split.
    { apply Hhdr; [|lower_names; done..]. unfold headers_set. lower_names.
      destruct (resetAt record =? 0);
        rewrite ?lookup_insert_ne by done; apply lookup_insert_eq. }
    split.
    { intros Hnz. apply Hhdr; [|lower_names; done..]. unfold headers_set. lower_names.
      apply Z.eqb_neq in Hnz. rewrite Hnz. apply lookup_insert_eq. }
    split.
    { unfold Response_json, with_content_type. cbn [headers].
      unfold headers_get, headers_set. lower_names.
      destruct (resetAt record =? 0);
        rewrite ?lookup_insert_ne by done; rewrite lookup_empty;
        rewrite lookup_insert_ne by done; apply lookup_insert_eq. }
    split; [lia|].
    intros request' t Hid Ht.
    rewrite isAllowed_fresh; [done|].
    unfold opens_window. rewrite Hid, E. lia.
  - rewrite isAllowed_fresh by (unfold opens_window; by rewrite E). done.
Qed.

Lemma denial_response_witness :
  ∃ response,
    rc_error (checkRateLimit (request_from "203.0.113.7") None None
                quiet_pass exhausted_table).1 = Some response
    ∧ headers_get (headers response) "Retry-After" = Some "1".
Proof.
  destruct (rc_error (checkRateLimit (request_from "203.0.113.7") None None
              quiet_pass exhausted_table).1)
    as [response|] eqn:E; [|vm_compute in E; discriminate].
  exists response. split; [reflexivity|].
  destruct (denial_response _ _ _ _ _ response E)
    as (record & Hrec & _ & _ & _ & _ & _ & _ & _ & _ & _ & _ & Hretry & _).
  vm_compute in Hrec. injection Hrec as <-. exact Hretry.
Defined.

(** ** Decorating responses *)

Ltac solve_lookup :=
  repeat first [rewrite lookup_insert_eq | rewrite lookup_insert_ne by done];
  reflexivity.

Ltac split_key k name :=
  destruct (decide (name = k)) as [<-|?]; [solve_lookup|].

Ltac split_security_keys k :=
  split_key k "x-frame-options"; split_key k "x-content-type-options";
  split_key k "x-xss-protection"; split_key k "strict-transport-security";
  split_key k "content-security-policy"; split_key k "referrer-policy";
  split_key k "permissions-policy".

Ltac split_cors_keys k :=
  split_key k "access-control-allow-origin";
  split_key k "access-control-allow-credentials"; split_key k "vary".

(** X6.  [addSecurityHeaders] replaces whatever the response held under
    the seven security header names by the fixed values, keeps every other
    header, the status, the status text and the body, removes nothing, and
    applying it twice is the same as applying it once. *)
Theorem addSecurityHeaders_overwrites_and_is_idempotent (response : Response) :
  Forall (fun nv => headers_get (headers (addSecurityHeaders response)) nv.1 = Some nv.2)
    security_headers
  ∧ (∀ name, toLowerCase name ∉ (toLowerCase <$> security_headers.*1) →
       headers_get (headers (addSecurityHeaders response)) name
       = headers_get (headers response) name)
  ∧ dom (headers response) ⊆ dom (headers (addSecurityHeaders response))
  ∧ status (addSecurityHeaders response) = status response
  ∧ statusText (addSecurityHeaders response) = statusText response
  ∧ body (addSecurityHeaders response) = body response
  ∧ addSecurityHeaders (addSecurityHeaders response) = addSecurityHeaders response.
Proof.
  split; [apply addSecurityHeaders_sets|].
  split; [apply addSecurityHeaders_keeps|].
  split.
  { unfold addSecurityHeaders, rewrap, headers_set. cbn [headers].
    rewrite !dom_insert. set_solver. }
  repeat (split; [reflexivity|]).
  unfold addSecurityHeaders, rewrap. cbn [headers status statusText body]. f_equal.
  unfold headers_set. lower_names. apply map_eq. intros k.
  split_security_keys k. by rewrite !lookup_insert_ne by done.
Qed.

(** X7.  The two decorations act on different header names: decorating
    with the security headers and then with the CORS headers gives the same
    response as the other order, and decorating twice with the CORS headers
    is the same as once. *)
Theorem decorations_commute (response : Response) (request : Request)
    (allowedOrigin : string) :
  addCORSHeaders (addSecurityHeaders response) request allowedOrigin
  = addSecurityHeaders (addCORSHeaders response request allowedOrigin)
  ∧ addCORSHeaders (addCORSHeaders response request allowedOrigin) request allowedOrigin
    = addCORSHeaders response request allowedOrigin.
Proof.
  unfold addCORSHeaders.
  destruct (origin_matches _ allowedOrigin) eqn:E; [|by split].
  split.
  - unfold addSecurityHeaders, rewrap. cbn [headers status statusText body]. f_equal.
    unfold headers_set. lower_names. apply map_eq. intros k.
    split_cors_keys k. split_security_keys k.
    by rewrite !lookup_insert_ne by done.
  - unfold rewrap. cbn [headers status statusText body]. f_equal.
    unfold headers_set. lower_names. apply map_eq. intros k.
    split_cors_keys k. by rewrite !lookup_insert_ne by done.
Qed.

(** ** The gate as a whole *)

Lemma checkRateLimit_shape request m w o requests :
  (rc_allowed (checkRateLimit request m w o requests).1 = true
   ∧ rc_error (checkRateLimit request m w o requests).1 = None)
  ∨ (rc_allowed (checkRateLimit request m w o requests).1 = false
     ∧ (checkRateLimit request m w o requests).2 = swept o requests
     ∧ ∃ response, rc_error (checkRateLimit request m w o requests).1 = Some response
                   ∧ status response = 429).
Proof.
  destruct (rc_error (checkRateLimit request m w o requests).1) as [response|] eqn:E.
  - right. destruct (denial_response_facts request m w o requests response E)
      as (Ha & Hs & Hst). eauto 6.
  - left. split; [|done]. revert E. unfold checkRateLimit.
    destruct (isAllowed rateLimiter request (now_check o) _) as [v requests2].
    by destruct (allowed v).
Qed.

(** What [applyMiddleware] does with the worker's options: the size check
    against 10485760 bytes first, then the limiter. *)
Lemma applyMiddleware_worker_cases request o requests :
  applyMiddleware request worker_options o requests =
    let rateCheck :=
      checkRateLimit request (Some 100) (Some (15 * 60 * 1000)) o requests in
    let checked :=
      if rc_allowed rateCheck.1 then
        (Ok {| mw_error := None; modifiedRequest := Some request |}, rateCheck.2)
      else
        (Ok {| mw_error := rc_error rateCheck.1; modifiedRequest := None |},
         rateCheck.2) in
    match declared_length request with
    | Num n =>
        if 10485760 <? n then
          (Ok {| mw_error := Some (payload_too_large n 10485760);
                 modifiedRequest := None |}, requests)
        else checked
    | NaN => checked
    end.
Proof.
  unfold applyMiddleware. simpl default.
  cbn [bodySizeLimit rateLimit worker_options opt_maxRequests opt_windowMs].
  rewrite checkBodySizeLimit_cases.
  change (parseSize "10mb") with (Ok (Num 10485760)).
  destruct (declared_length request) as [|n].
  - destruct (truthy _); cbn [valid negb];
      destruct (checkRateLimit request _ _ o requests) as [rateCheck requests'];
      cbn [fst snd]; by destruct (rc_allowed rateCheck).
  - destruct (10485760 <? n); cbn [valid negb error]; [done|].
    destruct (checkRateLimit request _ _ o requests) as [rateCheck requests'].
    cbn [fst snd]. by destruct (rc_allowed rateCheck).
Qed.

Lemma addCORSHeaders_status response request allowedOrigin :
  status (addCORSHeaders response request allowedOrigin) = status response
  ∧ statusText (addCORSHeaders response request allowedOrigin) = statusText response
  ∧ body (addCORSHeaders response request allowedOrigin) = body response.
Proof. unfold addCORSHeaders. by destruct (origin_matches _ _). Qed.

Lemma parseSize_throw_message size msg :
  parseSize size = Throw msg → msg = "Invalid size format: " +:+ size.
Proof.
  unfold parseSize. destruct (size_match (toLowerCase size)) as [[num unit]|]; [done|].
  by intros [= <-].
Qed.

Lemma declared_length_truthy request n :
  declared_length request = Num n →
  truthy (headers_get (req_headers request) "Content-Length") = true.
Proof.
  unfold declared_length.
  destruct (headers_get (req_headers request) "Content-Length") as [s|]; [|done].
  destruct s; [by rewrite parseInt10_empty|done].
Qed.

(** X8.  [applyMiddleware] returns exactly one of an error response and a
    request to pass on, and the request passed on is the one it was given.
    An error is a 413, in which case the limiter's table is untouched, or
    a 429, in which case the table is as the sweep left it.  The call
    throws only when the configured size limit does not parse and the
    request declares a length; the table is untouched then too. *)
Theorem applyMiddleware_outcome request options o requests :
  match applyMiddleware request options o requests with
  | (Ok result, requests') =>
      (mw_error result = None ∧ modifiedRequest result = Some request)
      ∨ (modifiedRequest result = None
         ∧ ∃ response, mw_error result = Some response
             ∧ ((status response = 413 ∧ requests' = requests)
                ∨ (status response = 429 ∧ requests' = swept o requests)))
  | (Throw msg, requests') =>
      requests' = requests
      ∧ msg = "Invalid size format: " +:+ default "10mb" (bodySizeLimit options)
      ∧ truthy (headers_get (req_headers request) "Content-Length") = true
  end.
Proof.
  unfold applyMiddleware. rewrite checkBodySizeLimit_cases.
  set (limit := default "10mb" (bodySizeLimit options)).
  set (rl := default {| opt_maxRequests := Some 100; opt_windowMs := Some 60000 |}
               (rateLimit options)).
  assert (Hrate :
    match
      (let '(rateCheck, requests') :=
         checkRateLimit request (opt_maxRequests rl) (opt_windowMs rl) o requests in
       if negb (rc_allowed rateCheck)
       then (Ok {| mw_error := rc_error rateCheck; modifiedRequest := None |}, requests')
       else (Ok {| mw_error := None; modifiedRequest := Some request |}, requests'))
    with
    | (Ok result, requests') =>
        (mw_error result = None ∧ modifiedRequest result = Some request)
        ∨ (modifiedRequest result = None
           ∧ ∃ response, mw_error result = Some response
               ∧ ((status response = 413 ∧ requests' = requests)
                  ∨ (status response = 429 ∧ requests' = swept o requests)))
    | (Throw msg, requests') =>
        requests' = requests
        ∧ msg = "Invalid size format: " +:+ limit
        ∧ truthy (headers_get (req_headers request) "Content-Length") = true
    end).
  { destruct (checkRateLimit_shape request (opt_maxRequests rl) (opt_windowMs rl)
                o requests) as [[Ha He]|(Ha & Hs & response & He & Hst)];
      destruct (checkRateLimit request _ _ o requests) as [rateCheck requests'];
      cbn [fst snd] in *; rewrite Ha; cbn [negb mw_error modifiedRequest].
    - by left.
    - right. split; [done|]. exists response. split; [done|]. by right. }
  destruct (declared_length request) as [|n] eqn:Ed.
  - destruct (truthy _) eqn:Et; [|exact Hrate].
    destruct (parseSize limit) as [sizeLimit|msg] eqn:Ep; [exact Hrate|].
    split; [done|]. split; [|done]. by apply parseSize_throw_message.
  - destruct (parseSize limit) as [[|L]|msg] eqn:Ep; [exact Hrate| |].
    + destruct (L <? n); cbn [valid negb error]; [|exact Hrate].
      right. split; [done|]. exists (payload_too_large n L). split; [done|]. by left.
    + split; [done|]. split; [by apply parseSize_throw_message|].
      by apply (declared_length_truthy request n).
Qed.

(** The decision table of the worker. *)
Lemma fetch_cases (requestHandler : Request -> Response) request env o requests :
  fetch requestHandler request env o requests =
    let decorate response :=
      addCORSHeaders (addSecurityHeaders response) request (allowed_origin env) in
    let rateCheck :=
      checkRateLimit request (Some 100) (Some (15 * 60 * 1000)) o requests in
    let checked :=
      match rc_error rateCheck.1 with
      | Some err => (Ok (decorate err), rateCheck.2)
      | None => (Ok (decorate (requestHandler request)), rateCheck.2)
      end in
    if String.eqb (method request) "OPTIONS" then
      (Ok (default (new_Response_null 204 ∅)
             (preflightResponse (handleCORS request (allowed_origin env)))),
       requests)
    else
      match declared_length request with
      | Num n =>
          if 10485760 <? n then
            (Ok (decorate (payload_too_large n 10485760)), requests)
          else checked
      | NaN => checked
      end.
Proof.
  cbv zeta. unfold fetch. fold (allowed_origin env).
  unfold handleCORS at 1.
  destruct (String.eqb (method request) "OPTIONS") eqn:Em.
  { unfold handleCORS. rewrite Em.
    by destruct (origin_matches _ _). }
  cbn [isPreflight]. rewrite applyMiddleware_worker_cases. cbv zeta.
  assert (Hchecked :
    (let '(r, requests') :=
       if rc_allowed (checkRateLimit request (Some 100)
                        (Some (15 * 60 * 1000)) o requests).1
       then (Ok {| mw_error := None; modifiedRequest := Some request |},
             (checkRateLimit request (Some 100) (Some (15 * 60 * 1000))
                o requests).2)
       else (Ok {| mw_error :=
                     rc_error (checkRateLimit request (Some 100)
                                 (Some (15 * 60 * 1000)) o requests).1;
                   modifiedRequest := None |},
             (checkRateLimit request (Some 100) (Some (15 * 60 * 1000))
                o requests).2) in
     match r with
     | Ok middlewareResult =>
         match mw_error middlewareResult with
         | Some err =>
             (Ok (addCORSHeaders (addSecurityHeaders err) request (allowed_origin env)),
              requests')
         | None =>
             (Ok (addCORSHeaders
                    (addSecurityHeaders
                       (requestHandler
                          (default request (modifiedRequest middlewareResult))))
                    request (allowed_origin env)), requests')
         end
     | Throw msg => (Throw msg, requests')
     end)
    = match rc_error (checkRateLimit request (Some 100)
                        (Some (15 * 60 * 1000)) o requests).1 with
      | Some err =>
          (Ok (addCORSHeaders (addSecurityHeaders err) request (allowed_origin env)),
           (checkRateLimit request (Some 100) (Some (15 * 60 * 1000)) o requests).2)
      | None =>
          (Ok (addCORSHeaders (addSecurityHeaders (requestHandler request)) request
                 (allowed_origin env)),
           (checkRateLimit request (Some 100) (Some (15 * 60 * 1000)) o requests).2)
      end).
  { destruct (checkRateLimit_shape request (Some 100) (Some (15 * 60 * 1000))
                o requests) as [[Ha He]|(Ha & Hs & response & He & Hst)];
      rewrite Ha, He; reflexivity. }
  destruct (declared_length request) as [|n]; [exact Hchecked|].
  destruct (10485760 <? n); [reflexivity|exact Hchecked].
Qed.


(** X10.  The downstream handler is reached exactly by the requests that
    pass the gate: for a preflight, an oversize request or one the limiter
    denies, the answer of the worker is the same whatever the handler is;
    any other request is handed to the handler unchanged and the handler's
    response goes out decorated.  What the worker does to the limiter's
    table never depends on the handler. *)
Theorem handler_reached_iff_passed
    (requestHandler : Request -> Response) request env o requests :
  (rejected request o requests →
     ∀ other : Request -> Response,
       fetch other request env o requests = fetch requestHandler request env o requests)
  ∧ (¬ rejected request o requests →
     fetch requestHandler request env o requests
     = (Ok (addCORSHeaders (addSecurityHeaders (requestHandler request)) request
              (allowed_origin env)),
        (isAllowed rateLimiter request (now_check o) (swept o requests)).2))
  ∧ (∀ other : Request -> Response,
       (fetch other request env o requests).2
       = (fetch requestHandler request env o requests).2).
Proof.
  split; [|split].
  - intros Hrej other. rewrite !fetch_cases. cbv zeta.
    destruct (String.eqb (method request) "OPTIONS") eqn:Em; [done|].
    apply String.eqb_neq in Em.
    destruct Hrej as [Hm|[(n & Hn & Hlt)|Hden]]; [done| |].
    + rewrite Hn. apply Z.ltb_lt in Hlt. by rewrite Hlt.
    + destruct (checkRateLimit_shape request (Some 100) (Some (15 * 60 * 1000))
                  o requests) as [[Ha He]|(Ha & Hs & response & He & Hst)];
        [congruence|].
      rewrite He. destruct (declared_length request) as [|n]; [done|].
      by destruct (10485760 <? n).
  - intros Hpass. rewrite fetch_cases. cbv zeta.
    destruct (String.eqb (method request) "OPTIONS") eqn:Em.
    { apply String.eqb_eq in Em. destruct Hpass. by left. }
    destruct (checkRateLimit_shape request (Some 100) (Some (15 * 60 * 1000))
                o requests) as [[Ha He]|(Ha & Hs & response & He & Hst)].
    + rewrite He, checkRateLimit_store.
      destruct (declared_length request) as [|n] eqn:En; [done|].
      destruct (10485760 <? n) eqn:El; [|done].
      apply Z.ltb_lt in El. destruct Hpass. right; left. by exists n.
    + destruct Hpass. by right; right.
  - intros other. rewrite !fetch_cases. cbv zeta.
    destruct (String.eqb (method request) "OPTIONS"); [done|].
    assert (Hsnd : ∀ h : Request -> Response,
      (match rc_error (checkRateLimit request (Some 100)
                         (Some (15 * 60 * 1000)) o requests).1 with
       | Some err =>
           (Ok (addCORSHeaders (addSecurityHeaders err) request (allowed_origin env)),
            (checkRateLimit request (Some 100) (Some (15 * 60 * 1000)) o requests).2)
       | None =>
           (Ok (addCORSHeaders (addSecurityHeaders (h request)) request
                  (allowed_origin env)),
            (checkRateLimit request (Some 100) (Some (15 * 60 * 1000)) o requests).2)
       end).2
      = (checkRateLimit request (Some 100) (Some (15 * 60 * 1000)) o requests).2).
    { intros h. by destruct (rc_error _). }
    destruct (declared_length request) as [|n]; [by rewrite !Hsnd|].
    destruct (10485760 <? n); [done|by rewrite !Hsnd].
Qed.

Lemma handler_reached_iff_passed_witness :
  fetch (fun _ => new_Response_text "first" 200 ∅) (request_of_length "20000000")
    {| FRONTEND_URL := None |} sweeping_pass ∅
  = fetch (fun _ => new_Response_text "second" 200 ∅) (request_of_length "20000000")
      {| FRONTEND_URL := None |} sweeping_pass ∅
  ∧ fetch (fun _ => new_Response_text "first" 200 ∅) (request_of_length "20")
      {| FRONTEND_URL := None |} sweeping_pass ∅
    = (Ok (addCORSHeaders (addSecurityHeaders (new_Response_text "first" 200 ∅))
             (request_of_length "20") "http://localhost:5173"),
       (isAllowed rateLimiter (request_of_length "20") 2000 (swept sweeping_pass ∅)).2).
Proof.
  split.
  - apply (proj1 (handler_reached_iff_passed
                    (fun _ => new_Response_text "second" 200 ∅)
                    (request_of_length "20000000") {| FRONTEND_URL := None |}
                    sweeping_pass ∅)).
    right; left. exists 20000000. split; [reflexivity|]. vm_compute. reflexivity.
  - apply (proj1 (proj2 (handler_reached_iff_passed
                    (fun _ => new_Response_text "first" 200 ∅)
                    (request_of_length "20") {| FRONTEND_URL := None |}
                    sweeping_pass ∅))).
    intros [Hm|[(n & Hn & Hlt)|Hden]].
    + vm_compute in Hm. discriminate.
    + vm_compute in Hn. injection Hn as <-. vm_compute in Hlt. discriminate.
    + vm_compute in Hden. discriminate.
Defined.

Lemma addCORSHeaders_keeps_other response request allowedOrigin name :
  toLowerCase name ∉ cors_names →
  headers_get (headers (addCORSHeaders response request allowedOrigin)) name
  = headers_get (headers response) name.
Proof.
  intros Hname. unfold addCORSHeaders.
  destruct (origin_matches _ allowedOrigin); [|done].
  cbn [headers rewrap]. unfold headers_get, headers_set. lower_names.
  unfold cors_names in Hname.
  rewrite !lookup_insert_ne; [done|..];
    intros Heq; apply Hname; rewrite <- Heq; set_solver.
Qed.

Ltac literal_not_in :=
  unfold cors_names, security_headers; simpl; lower_names;
  let H := fresh in
  intros H; repeat (apply elem_of_cons in H as [H|H]; [discriminate H|]);
  by apply elem_of_nil in H.

(** X11.  A denial reaches the client complete: when the limiter denies a
    request that is neither a preflight nor oversize, the worker answers
    with that 429, in which [Retry-After] and the three [X-RateLimit-*]
    headers are as [checkRateLimit] set them, the limit shown being the
    worker's 100, and to which the security headers have been added. *)
Theorem denial_reaches_the_client
    (requestHandler : Request -> Response) request env o requests err :
  method request ≠ "OPTIONS" →
  ¬ oversize 10485760 request →
  rc_error (checkRateLimit request (Some 100) (Some (15 * 60 * 1000)) o requests).1
    = Some err →
  ∃ response,
    fetch requestHandler request env o requests = (Ok response, swept o requests)
    ∧ status response = 429
    ∧ body response = body err
    ∧ headers_get (headers response) "Retry-After"
      = headers_get (headers err) "Retry-After"
    ∧ headers_get (headers response) "X-RateLimit-Limit" = Some "100"
    ∧ headers_get (headers response) "X-RateLimit-Remaining" = Some "0"
    ∧ headers_get (headers response) "X-RateLimit-Reset"
      = headers_get (headers err) "X-RateLimit-Reset"
    ∧ Forall (fun nv => headers_get (headers response) nv.1 = Some nv.2)
        security_headers.
Proof.
  intros Hm Hsize Herr.
  destruct (denial_response_facts _ _ _ _ _ _ Herr) as (Ha & Hs & Hst).
  assert (Hkeep : ∀ name,
            toLowerCase name ∉ cors_names →
            toLowerCase name ∉ (toLowerCase <$> security_headers.*1) →
            headers_get
              (headers (addCORSHeaders (addSecurityHeaders err) request
                          (allowed_origin env))) name
            = headers_get (headers err) name).
  { intros name H1 H2. rewrite addCORSHeaders_keeps_other by done.
    by apply addSecurityHeaders_keeps. }
  exists (addCORSHeaders (addSecurityHeaders err) request (allowed_origin env)).
  split.
  { rewrite fetch_cases. cbv zeta. apply String.eqb_neq in Hm. rewrite Hm, Herr, Hs.
    destruct (declared_length request) as [|n] eqn:En; [done|].
    destruct (10485760 <? n) eqn:El; [|done].
    apply Z.ltb_lt in El. destruct Hsize. by exists n. }
  destruct (addCORSHeaders_status (addSecurityHeaders err) request (allowed_origin env))
    as (-> & _ & ->).
  split; [exact Hst|]. split; [done|].
  destruct (denial_response_headers _ _ _ _ _ _ Herr) as (Hlimit & Hrem).
  split; [apply Hkeep; literal_not_in|].
  split; [rewrite Hkeep by literal_not_in; exact Hlimit|].
  split; [rewrite Hkeep by literal_not_in; exact Hrem|].
  split; [apply Hkeep; literal_not_in|].
  apply addCORSHeaders_keeps_security, addSecurityHeaders_sets.
Qed.

Lemma denial_reaches_the_client_witness :
  ∃ response,
    fetch (fun _ => new_Response_text "ok" 200 ∅) (request_from "203.0.113.7")
      {| FRONTEND_URL := None |} quiet_pass exhausted_table
    = (Ok response, exhausted_table)
    ∧ status response = 429.
Proof.
  destruct (rc_error (checkRateLimit (request_from "203.0.113.7") (Some 100)
              (Some (15 * 60 * 1000)) quiet_pass exhausted_table).1)
    as [err|] eqn:E; [|vm_compute in E; discriminate].
  destruct (denial_reaches_the_client (fun _ => new_Response_text "ok" 200 ∅)
              (request_from "203.0.113.7") {| FRONTEND_URL := None |}
              quiet_pass exhausted_table err)
    as (response & Hfetch & Hstatus & _); [| |exact E|].
  - vm_compute. discriminate.
  - intros (n & Hn & _). vm_compute in Hn. discriminate.
  - exists response. split; [exact Hfetch|exact Hstatus].
Defined.

(** The record behind a denial and the delay it states. *)
Lemma denial_retry_after request m w o requests response :
  rc_error (checkRateLimit request m w o requests).1 = Some response →
  ∃ record,
    swept o requests !! getClientId request = Some record
    ∧ now_check o ≤ resetAt record
    ∧ headers_get (headers response) "Retry-After"
      = Some (toString (ceil_div_1000 (resetAt record - now_retry o))).
Proof.
  unfold checkRateLimit. fold (swept o requests).
  destruct (swept o requests !! getClientId request) as [record|] eqn:E.
  - destruct (Z_lt_le_dec (resetAt record) (now_check o)) as [Hexp|Hlive].
    { rewrite isAllowed_fresh by (unfold opens_window; by rewrite E). done. }
    destruct (Z_lt_le_dec (count record) (maxRequests rateLimiter)) as [Hlt|Hge].
    { by rewrite (isAllowed_counted rateLimiter request _ _ record). }
    rewrite (isAllowed_denied rateLimiter request _ _ record) by done.
    cbn [allowed remaining v_resetAt negb rc_error rc_allowed fst snd].
    intros [= <-]. exists record. split; [done|]. split; [done|].
    unfold Response_json, with_content_type. cbn [headers].
    unfold headers_get, headers_set. lower_names.
    destruct (resetAt record =? 0);
      rewrite ?lookup_insert_ne by done; rewrite lookup_empty;
      rewrite lookup_insert_ne by done; apply lookup_insert_eq.
  - rewrite isAllowed_fresh by (unfold opens_window; by rewrite E). done.
Qed.

Lemma swept_ends_by latest o requests :
  ends_by latest requests → ends_by latest (swept o requests).
Proof.
  intros H id record Hl. unfold swept in Hl.
  destruct (sweep_drawn o); [|by apply (H id)].
  rewrite cleanup_lookup in Hl. destruct (requests !! id) as [r|] eqn:E; [|done].
  case_decide; [done|]. injection Hl as <-. by apply (H id).
Qed.

Lemma checkRateLimit_ends_by latest request m w o requests :
  now_check o + 60000 ≤ latest →
  ends_by latest requests →
  ends_by latest (checkRateLimit request m w o requests).2.
Proof.
  intros Hnow H. rewrite checkRateLimit_store.
  apply (swept_ends_by latest o) in H. revert H.
  generalize (swept o requests). intros table H id record.
  unfold isAllowed.
  destruct (table !! getClientId request) as [r|] eqn:E.
  - destruct (resetAt r <? now_check o); cbn [snd].
    { destruct (decide (getClientId request = id)) as [<-|Hne].
      - rewrite lookup_insert_eq. intros [= <-]. exact Hnow.
      - rewrite lookup_insert_ne by done. apply H. }
    destruct (maxRequests rateLimiter <=? count r); cbn [snd]; [apply H|].
    destruct (decide (getClientId request = id)) as [<-|Hne].
    + rewrite lookup_insert_eq. intros [= <-]. simpl. by apply (H _ _ E).
    + rewrite lookup_insert_ne by done. apply H.
  - cbn [snd]. destruct (decide (getClientId request = id)) as [<-|Hne].
    + rewrite lookup_insert_eq. intros [= <-]. exact Hnow.
    + rewrite lookup_insert_ne by done. apply H.
Qed.

Lemma process_ends_by latest passes : ∀ requests,
  Forall (fun p => now_check (pass_oracle p) + 60000 ≤ latest) passes →
  ends_by latest requests →
  ends_by latest (process passes requests).
Proof.
  induction passes as [|p rest IH]; intros requests Hall H; [done|].
  inversion Hall as [|? ? Hp Hrest]; subst. simpl.
  apply IH; [done|]. by apply checkRateLimit_ends_by.
Qed.

(** X12.  On a table built up from empty by passes through
    [checkRateLimit], none of which read a later clock than the denial
    does, a denial never asks the client to wait longer than the 60
    seconds of the limiter's window, whatever window the caller passed
    in; and the delay is not negative when the two clock readings of the
    denying pass coincide. *)
Theorem retry_after_within_the_window (passes : list Pass) request m w o response :
  Forall (fun p => now_check (pass_oracle p) ≤ now_retry o) passes →
  rc_error (checkRateLimit request m w o (process passes ∅)).1 = Some response →
  ∃ seconds,
    headers_get (headers response) "Retry-After" = Some (toString seconds)
    ∧ seconds ≤ 60
    ∧ (now_retry o = now_check o → 0 ≤ seconds).
Proof.
  intros Hclock Herr.
  destruct (denial_retry_after _ _ _ _ _ _ Herr) as (record & Hrec & Hlive & Hretry).
  assert (Hend : ends_by (now_retry o + 60000) (swept o (process passes ∅))).
  { apply swept_ends_by, process_ends_by.
    - eapply Forall_impl; [exact Hclock|]. simpl. intros p Hp. lia.
    - intros id r Hl. by rewrite lookup_empty in Hl. }
  specialize (Hend _ _ Hrec).
  pose proof (ceil_div_1000_bounds (resetAt record - now_retry o)) as Hceil.
  exists (ceil_div_1000 (resetAt record - now_retry o)).
  split; [exact Hretry|]. split; [lia|]. intros Heq. lia.
Qed.

Lemma retry_after_within_the_window_witness :
  ∃ response seconds,
    rc_error (checkRateLimit (request_from "203.0.113.7") None (Some (15 * 60 * 1000))
                quiet_pass (process hundred_passes ∅)).1 = Some response
    ∧ headers_get (headers response) "Retry-After" = Some (toString seconds)
    ∧ seconds ≤ 60.
Proof.
  destruct (rc_error (checkRateLimit (request_from "203.0.113.7") None
              (Some (15 * 60 * 1000)) quiet_pass (process hundred_passes ∅)).1)
    as [response|] eqn:E; [|vm_compute in E; discriminate].
  destruct (retry_after_within_the_window hundred_passes (request_from "203.0.113.7")
              None (Some (15 * 60 * 1000)) quiet_pass response)
    as (seconds & Hretry & Hle & _); [|exact E|].
  - unfold hundred_passes. apply Forall_forall. intros p Hp.
    apply elem_of_replicate in Hp as [-> _]. vm_compute. discriminate.
  - exists response, seconds. split; [reflexivity|]. split; assumption.
Defined.

(** ** Size strings and declared lengths, continued *)

Lemma digits_val_nonneg s : ∀ acc,
  all is_digit s = true → 0 ≤ acc → 0 ≤ digits_val acc s.
Proof.
  induction s as [|c s IH]; intros acc Hall Hacc; simpl in *; [done|].
  apply andb_prop in Hall as [Hc Hs]. apply IH; [done|].
  unfold is_digit in Hc. apply andb_prop in Hc as [H1 H2].
  apply Z.leb_le in H1, H2. unfold digit_val. lia.
Qed.

Lemma parseFloat_nonneg s : (0 <= parseFloat s)%Q.
Proof.
  unfold parseFloat. destruct (span is_digit s) as [ip r] eqn:E.
  apply span_eq in E as (_ & Hip & _).
  pose proof (digits_val_nonneg ip 0 Hip ltac:(lia)) as H0.
  assert (Hz : (0 <= inject_Z (digits_val 0 ip))%Q).
  { unfold Qle. simpl. lia. }
  destruct r as [|c r']; [exact Hz|].
  destruct (Ascii.eqb c "."); [|exact Hz].
  pose proof (span_all is_digit r') as Hfp.
  pose proof (digits_val_nonneg _ _ Hfp H0) as H1.
  unfold Qle. simpl. lia.
Qed.

Lemma scale_nonneg value e n :
  (0 <= value)%Q → (∀ k, e = OwnNumber k → 0 ≤ k) → scale value e = Num n → 0 ≤ n.
Proof.
  intros Hv Hk. unfold scale.
  assert (Hfloor : ∀ k, 0 ≤ k → 0 ≤ Qfloor (value * inject_Z k)).
  { intros k H. change 0 with (Qfloor 0). apply Qfloor_resp_le.
    apply Qmult_le_0_compat; [done|]. unfold Qle. simpl. lia. }
  destruct e as [k| |]; [|done|].
  - intros [= <-]. by apply Hfloor, Hk.
  - intros [= <-]. apply Hfloor. lia.
Qed.

Lemma units_nonneg unit k : units unit = OwnNumber k → 0 ≤ k.
Proof.
  unfold units. repeat (destruct (String.eqb unit _); [intros [= <-]; lia|]). done.
Qed.

Lemma toLowerCase_idempotent s : toLowerCase (toLowerCase s) = toLowerCase s.
Proof.
  induction s as [|c s IH]; simpl; [done|]. rewrite IH. f_equal.
  destruct c as [[] [] [] [] [] [] [] []]; reflexivity.
Qed.

(** X13.  A size that [parseSize] returns is never negative, and
    [parseSize] does not distinguish upper from lower case: a string and
    its lower-case form give the same number, or are both refused. *)
Theorem parseSize_nonnegative_and_case_blind (size : string) :
  (∀ n, parseSize size = Ok (Num n) → 0 ≤ n)
  ∧ (∀ v, parseSize size = Ok v ↔ parseSize (toLowerCase size) = Ok v)
  ∧ ((∃ msg, parseSize size = Throw msg)
     ↔ ∃ msg, parseSize (toLowerCase size) = Throw msg).
Proof.
  unfold parseSize. rewrite toLowerCase_idempotent.
  destruct (size_match (toLowerCase size)) as [[num unit]|].
  - split; [|split].
    + intros n [= H]. apply (scale_nonneg _ _ _ (parseFloat_nonneg num)) in H; [done|].
      apply units_nonneg.
    + done.
    + split; intros [msg H]; discriminate.
  - split; [done|]. split; [done|]. split; eauto.
Qed.

(** X14.  The size guard fails open on everything but a positive declared
    length: a request whose [Content-Length] is missing, empty, not a
    number, zero or negative is never rejected, whatever the limit. *)
Theorem checkBodySizeLimit_fails_open (request : Request) (limit : string) check :
  declared_length request = NaN
  ∨ (∃ n, declared_length request = Num n ∧ n ≤ 0) →
  checkBodySizeLimit request limit = Ok check →
  check = {| valid := true; error := None |}.
Proof.
  intros Hdecl. rewrite checkBodySizeLimit_cases.
  destruct Hdecl as [->|(n & -> & Hn)].
  - destruct (truthy _); [|by intros [= <-]].
    destruct (parseSize limit); [by intros [= <-]|done].
  - destruct (parseSize limit) as [[|L]|msg] eqn:Ep; [by intros [= <-]| |done].
    assert (0 ≤ L).
    { unfold parseSize in Ep.
      destruct (size_match (toLowerCase limit)) as [[num unit]|]; [|done].
      injection Ep as Ep.
      apply (scale_nonneg _ _ _ (parseFloat_nonneg num)) in Ep; [done|].
      apply units_nonneg. }
    rewrite (proj2 (Z.ltb_ge L n)) by lia. by intros [= <-].
Qed.

Lemma checkBodySizeLimit_fails_open_witness :
  checkBodySizeLimit (request_of_length "-5") "1kb"
    = Ok {| valid := true; error := None |}
  ∧ checkBodySizeLimit (request_of_length "lots") "1kb"
    = Ok {| valid := true; error := None |}.
Proof.
  split.
  - destruct (checkBodySizeLimit (request_of_length "-5") "1kb") as [check|msg] eqn:E;
      [|vm_compute in E; discriminate].
    f_equal. apply (checkBodySizeLimit_fails_open (request_of_length "-5") "1kb");
      [|exact E].
    right. exists (-5). split; [reflexivity|]. vm_compute. discriminate.
  - destruct (checkBodySizeLimit (request_of_length "lots") "1kb") as [check|msg] eqn:E;
      [|vm_compute in E; discriminate].
    f_equal. apply (checkBodySizeLimit_fails_open (request_of_length "lots") "1kb");
      [|exact E].
    left. reflexivity.
Defined.

(** * The route behind the gate *)

(** X15.  The action checks the form before it calls the model: without a
    code value (missing or empty) it answers 400 "Code is required", and
    with code but without a language 400 "Language is required", in both
    cases whatever the model binding is.  With both present a failure of
    the model becomes the 500 "Failed to explain code".  Once the form has
    been read the action never throws and its status is 200, 400 or 500;
    a failure to read the form, which happens before the [try], is thrown
    on. *)
Theorem action_validates_form (form : Form) (AI : AIBinding) :
  (form_truthy (form_get form "code") = false →
     ∀ other : AIBinding,
       action (Ok form) other
       = Ok {| json_status := 400; json_data := ErrorData "Code is required" |})
  ∧ (form_truthy (form_get form "code") = true →
     form_truthy (form_get form "language") = false →
     ∀ other : AIBinding,
       action (Ok form) other
       = Ok {| json_status := 400; json_data := ErrorData "Language is required" |})
  ∧ (∀ code language msg,
       form_get form "code" = Some code → form_truthy (Some code) = true →
       form_get form "language" = Some language →
       form_truthy (Some language) = true →
       AI "@cf/openai/gpt-oss-120b" (model_options language code) = Throw msg →
       action (Ok form) AI
       = Ok {| json_status := 500; json_data := ErrorData "Failed to explain code" |})
  ∧ (∃ response,
       action (Ok form) AI = Ok response
       ∧ (json_status response = 200 ∨ json_status response = 400
          ∨ json_status response = 500))
  ∧ (∀ msg, action (Throw msg) AI = Throw msg).
Proof.
  unfold action. split; [|split; [|split; [|split]]].
  - intros Hc other. by rewrite Hc.
  - intros Hc Hl other. rewrite Hc, Hl. reflexivity.
  - intros code language msg Hc Hct Hl Hlt Hfail.
    rewrite Hc, Hl, Hct, Hlt. simpl default. rewrite Hlt. cbn [negb].
    fold (model_options language code). by rewrite Hfail.
  - destruct (form_truthy (form_get form "code")); cbn [negb]; [|eauto].
    destruct (form_truthy (form_get form "language")) eqn:Hl; cbn [negb].
    + destruct (form_get form "language") as [language|]; [|done].
      simpl default. rewrite Hl. cbn [negb].
      destruct (AI _ _); eauto 6.
    + cbn [form_truthy is_empty negb]. eauto 6.
  - done.
Qed.

Lemma action_validates_form_witness :
  action (Ok [("language", FormText "Python")]) failing_model
    = Ok {| json_status := 400; json_data := ErrorData "Code is required" |}
  ∧ action (Ok [("code", FormText "print(1)"); ("language", FormText "")]) failing_model
    = Ok {| json_status := 400; json_data := ErrorData "Language is required" |}
  ∧ action (Ok [("code", FormText "print(1)"); ("language", FormText "Python")])
      failing_model
    = Ok {| json_status := 500; json_data := ErrorData "Failed to explain code" |}.
Proof.
  split; [|split].
  - apply (proj1 (action_validates_form [("language", FormText "Python")] failing_model)).
    reflexivity.
  - apply (proj1 (proj2 (action_validates_form
                    [("code", FormText "print(1)"); ("language", FormText "")]
                    failing_model))); reflexivity.
  - apply (proj1 (proj2 (proj2 (action_validates_form
                    [("code", FormText "print(1)"); ("language", FormText "Python")]
                    failing_model)))
             (FormText "print(1)") (FormText "Python") "model unavailable");
      reflexivity.
Defined.

(** X16.  With code and language present and a model that answers, the
    action calls the model once, with the prompt built from that language
    and code, and answers 200 echoing the language.  The explanation is
    the text of the first content item of the second output item; when the
    answer is null, has fewer than two output items, or that item has no
    content, the action still answers 200, with an empty explanation. *)
Theorem action_explains (form : Form) (AI : AIBinding) code language response :
  form_get form "code" = Some code → form_truthy (Some code) = true →
  form_get form "language" = Some language → form_truthy (Some language) = true →
  AI "@cf/openai/gpt-oss-120b" (model_options language code) = Ok response →
  action (Ok form) AI
  = Ok {| json_status := 200;
          json_data :=
            ExplanationData (explanation_of response) language
              (match response with Some r => usage r | None => None end) |}
  ∧ input (model_options language code)
    = "Please explain this " +:+ form_text language +:+ " code in simple terms: "
      +:+ String (ascii_of_nat 10) (String (ascii_of_nat 10) "```")
      +:+ form_text code +:+ "```"
  ∧ (∀ r first second others item rest,
       response = Some r → output r = Some (first :: second :: others) →
       content second = Some (item :: rest) →
       explanation_of response = text item)
  ∧ (response = None → explanation_of response = "")
  ∧ (∀ r, response = Some r → output r = None → explanation_of response = "")
  ∧ (∀ r items, response = Some r → output r = Some items →
       (length items < 2)%nat → explanation_of response = "")
  ∧ (∀ r items second,
       response = Some r → output r = Some items → items !! 1%nat = Some second →
       content second = None ∨ content second = Some [] →
       explanation_of response = "").
Proof.
  intros Hc Hct Hl Hlt Hrun.
  split; [|split; [reflexivity|split; [|split; [|split; [|split]]]]].
  - unfold action. rewrite Hc, Hl, Hct, Hlt. simpl default. rewrite Hlt.
    cbn [negb]. fold (model_options language code). by rewrite Hrun.
  - intros r first second others item rest -> Hout Hcontent.
    unfold explanation_of. rewrite Hout. simpl. by rewrite Hcontent.
  - by intros ->.
  - intros r -> Hout. unfold explanation_of. by rewrite Hout.
  - intros r items -> Hout Hlen. unfold explanation_of. rewrite Hout.
    destruct items as [|a [|b items]]; simpl in *; [done|done|lia].
  - intros r items second -> Hout Hsec Hcon. unfold explanation_of.
    rewrite Hout, Hsec. by destruct Hcon as [->| ->].
Qed.

Lemma action_explains_witness :
  action (Ok [("code", FormText "print(1)"); ("language", FormText "Python")])
    silent_model
  = Ok {| json_status := 200;
          json_data := ExplanationData "" (FormText "Python") None |}.
Proof.
  refine (proj1 (action_explains
                   [("code", FormText "print(1)"); ("language", FormText "Python")]
                   silent_model (FormText "print(1)") (FormText "Python")
                   (Some {| output := Some []; usage := None |}) _ _ _ _ _));
    reflexivity.
Defined.

(** * The typing animation *)

Lemma substring_whole s : substring 0 (String.length s) s = s.
Proof. induction s as [|c s IH]; simpl; [done|by rewrite IH]. Qed.

Lemma substring_empty_length s : substring 0 0 s = "".
Proof. by destruct s. Qed.

Lemma ticks_S k text st : ticks (S k) text st = tick text (ticks k text st).
Proof. reflexivity. Qed.

Lemma ticks_running text k :
  text ≠ "" → (k ≤ String.length text)%nat →
  ticks k text (start text mounted)
  = {| currentIndex := k; displayedText := substring 0 k text;
       isComplete := false; stoppedRef := false;
       intervalRef := true; completions := 0 |}.
Proof.
  intros Hne. apply is_empty_false in Hne.
  induction k as [|k IH]; intros Hk.
  - unfold ticks, start. simpl. rewrite Hne. by rewrite substring_empty_length.
  - rewrite ticks_S, IH by lia.
    unfold tick. cbn [intervalRef stoppedRef currentIndex negb].
    by rewrite (proj2 (Nat.ltb_lt _ _)) by lia.
Qed.

Lemma ticks_finished text k :
  text ≠ "" → (String.length text < k)%nat →
  ticks k text (start text mounted)
  = {| currentIndex := String.length text; displayedText := text;
       isComplete := true; stoppedRef := false;
       intervalRef := false; completions := 1 |}.
Proof.
  intros Hne. induction k as [|k IH]; intros Hk; [lia|].
  rewrite ticks_S.
  destruct (decide (k = String.length text)) as [->|Hk'].
  - rewrite ticks_running by done.
    unfold tick. cbn [intervalRef stoppedRef currentIndex negb].
    rewrite Nat.ltb_irrefl. cbn [displayedText isComplete completions].
    by rewrite substring_whole.
  - rewrite IH by lia. reflexivity.
Qed.

Lemma typing_progress_facts text k :
  text ≠ "" →
  displayedText (ticks k text (start text mounted))
  = substring 0 (Nat.min k (String.length text)) text
  ∧ completions (ticks k text (start text mounted))
    = (if (String.length text <? k)%nat then 1 else 0)%nat.
Proof.
  intros Hne. destruct (le_lt_dec k (String.length text)) as [Hle|Hlt].
  - rewrite ticks_running by done. cbn [displayedText completions].
    rewrite Nat.min_l by done. by rewrite (proj2 (Nat.ltb_ge _ _)) by done.
  - rewrite ticks_finished by done. cbn [displayedText completions].
    rewrite Nat.min_r by lia. rewrite (proj2 (Nat.ltb_lt _ _)) by done.
    by rewrite substring_whole.
Qed.

(** X17.  For a non-empty text whose props stay the same, the animation
    shows after [k] firings of its interval exactly the first [k]
    characters, the whole text from the firing number [length] on; the
    firing after that marks it complete, calls [onComplete] once and clears
    the interval, and nothing changes afterwards. *)
Theorem typing_shows_a_growing_prefix (text : string) (k : nat) :
  text ≠ "" →
  let st := ticks k text (start text mounted) in
  displayedText st = substring 0 (Nat.min k (String.length text)) text
  ∧ ((String.length text ≤ k)%nat → displayedText st = text)
  ∧ isComplete st = (String.length text <? k)%nat
  ∧ completions st = (if (String.length text <? k)%nat then 1 else 0)%nat
  ∧ intervalRef st = (k <=? String.length text)%nat.
Proof.
  intros Hne st. subst st.
  destruct (le_lt_dec k (String.length text)) as [Hle|Hlt].
  - rewrite ticks_running by done. cbn [displayedText isComplete completions intervalRef].
    rewrite Nat.min_l by done.
    rewrite (proj2 (Nat.ltb_ge _ _)) by done.
    rewrite (proj2 (Nat.leb_le _ _)) by done.
    split; [done|]. split; [|done].
    intros Hge. assert (k = String.length text) as -> by lia. apply substring_whole.
  - rewrite ticks_finished by done. cbn [displayedText isComplete completions intervalRef].
    rewrite Nat.min_r by lia.
    rewrite (proj2 (Nat.ltb_lt _ _)) by done.
    rewrite (proj2 (Nat.leb_gt _ _)) by done.
    by rewrite substring_whole.
Qed.

Lemma typing_shows_a_growing_prefix_witness :
  displayedText (ticks 3 "hello" (start "hello" mounted)) = "hel"
  ∧ isComplete (ticks 6 "hello" (start "hello" mounted)) = true.
Proof.
  split.
  - refine (proj1 (typing_shows_a_growing_prefix "hello" 3 _)). discriminate.
  - refine (proj1 (proj2 (proj2 (typing_shows_a_growing_prefix "hello" 6 _)))).
    discriminate.
Defined.

Lemma ticks_idle text st j : intervalRef st = false → ticks j text st = st.
Proof.
  intros Hidle. induction j as [|j IH]; [done|].
  rewrite ticks_S, IH. unfold tick. by rewrite Hidle.
Qed.

(** X18.  [stop] freezes the animation: after [k] firings and a stop, the
    text shown stays the prefix reached, the component is complete, and no
    later firing changes anything.  [stop] calls [onComplete] every time:
    once when the animation was still running, a second time when it had
    already completed by itself. *)
Theorem stop_freezes_the_animation (text : string) (k j : nat) :
  text ≠ "" →
  let stopped := stop (ticks k text (start text mounted)) in
  ticks j text stopped = stopped
  ∧ displayedText stopped = substring 0 (Nat.min k (String.length text)) text
  ∧ isComplete stopped = true
  ∧ completions stopped = (if (String.length text <? k)%nat then 2 else 1)%nat.
Proof.
  intros Hne stopped. subst stopped.
  destruct (typing_progress_facts text k Hne) as (Hd & Hc).
  split; [by apply ticks_idle|]. split; [exact Hd|]. split; [done|].
  cbn [stop completions]. rewrite Hc. by destruct (String.length text <? k)%nat.
Qed.

Lemma stop_freezes_the_animation_witness :
  displayedText (ticks 7 "hello" (stop (ticks 2 "hello" (start "hello" mounted)))) = "he".
Proof.
  destruct (stop_freezes_the_animation "hello" 2 7) as (Hfix & Hshown & _);
    [discriminate|].
  rewrite Hfix. exact Hshown.
Defined.

(** X19.  For an empty text the effect starts nothing: no firing ever
    happens to change the state, the component never becomes complete and
    [onComplete] is never called. *)
Theorem empty_text_never_completes (k : nat) :
  ticks k "" (start "" mounted) = mounted
  ∧ isComplete (ticks k "" (start "" mounted)) = false
  ∧ completions (ticks k "" (start "" mounted)) = 0%nat.
Proof.
  assert (H : ticks k "" (start "" mounted) = mounted) by (by apply ticks_idle).
  by rewrite H.
Qed.

(** * The message list of the page *)






(** X21.  The updater that ends the typing of a message keeps the number
    and the order of the messages and every field except [isTyping]; it
    sets [isTyping] to false on every message that has the given id and
    leaves the messages with another id as they are; applying it again
    changes nothing, and updates for two ids can be applied in either
    order. *)
Theorem finishTyping_touches_only_isTyping (messageId : string) (prev : list Home.Message) :
  length (Home.finishTyping messageId prev) = length prev
  ∧ (∀ i msg, prev !! i = Some msg →
       ∃ msg', Home.finishTyping messageId prev !! i = Some msg'
         ∧ Home.id msg' = Home.id msg ∧ Home.type msg' = Home.type msg
         ∧ Home.content msg' = Home.content msg
         ∧ Home.language msg' = Home.language msg
         ∧ Home.timestamp msg' = Home.timestamp msg
         ∧ (Home.id msg = messageId → Home.isTyping msg' = Some false)
         ∧ (Home.id msg ≠ messageId → msg' = msg))
  ∧ Home.finishTyping messageId (Home.finishTyping messageId prev)
    = Home.finishTyping messageId prev
  ∧ (∀ other,
       Home.finishTyping messageId (Home.finishTyping other prev)
       = Home.finishTyping other (Home.finishTyping messageId prev)).
Proof.
  unfold Home.finishTyping. split; [by rewrite length_fmap|]. split; [|split].
  - intros i msg Hi. rewrite list_lookup_fmap, Hi. simpl.
    destruct (String.eqb (Home.id msg) messageId) eqn:E.
    + apply String.eqb_eq in E. eexists. split; [reflexivity|]. simpl.
      repeat (split; [done|]). done.
    + apply String.eqb_neq in E. exists msg. repeat (split; [done|]). done.
  - rewrite <- list_fmap_compose. apply list_fmap_ext. intros i msg _. simpl.
    destruct (String.eqb (Home.id msg) messageId) eqn:E; simpl; by rewrite E.
  - intros other. rewrite <- !list_fmap_compose. apply list_fmap_ext.
    intros i msg _. simpl.
    destruct (String.eqb (Home.id msg) messageId) eqn:E1,
             (String.eqb (Home.id msg) other) eqn:E2; simpl;
      rewrite ?E1, ?E2; reflexivity.
Qed.

(** X22.  When fetcher data arrives the page appends at most one assistant
    message after the existing ones.  A non-empty explanation wins over an
    error: it is shown as a typing message, and a time-out of three
    milliseconds per character plus 500 is set for its id.  Without one, a
    non-empty error is shown as "Error: ..." and is not typing.  Data with
    neither, an empty explanation included, adds nothing. *)
Theorem onData_appends_one_message
    (data : option Home.FetcherData) (now_id now_stamp : Z) (prev : list Home.Message) :
  let result := Home.onData data now_id now_stamp prev in
  (∀ d text, data = Some d → Home.explanation d = Some text → text ≠ "" →
     result
     = ((prev ++ [{| Home.id := toString now_id; Home.type := Home.assistant;
                    Home.content := text; Home.language := None;
                    Home.timestamp := now_stamp; Home.isTyping := Some true |}])%list,
        Some (toString now_id, Z.of_nat (String.length text) * 3 + 500)))
  ∧ (∀ d text, data = Some d → truthy (Home.explanation d) = false →
       Home.error d = Some text → text ≠ "" →
       result
       = ((prev ++ [{| Home.id := toString now_id; Home.type := Home.assistant;
                      Home.content := "Error: " +:+ text; Home.language := None;
                      Home.timestamp := now_stamp; Home.isTyping := Some false |}])%list,
          None))
  ∧ ((data = None
      ∨ ∃ d, data = Some d ∧ truthy (Home.explanation d) = false
             ∧ truthy (Home.error d) = false) →
     result = (prev, None))
  ∧ (∃ added, result.1 = (prev ++ added)%list ∧ (length added ≤ 1)%nat).
Proof.
  intros result. subst result. unfold Home.onData.
  split; [|split; [|split]].
  - intros d text -> He Hne. rewrite He. simpl.
    apply is_empty_false in Hne. by rewrite Hne.
  - intros d text -> Hexp He Hne. rewrite Hexp, He. simpl.
    apply is_empty_false in Hne. by rewrite Hne.
  - intros [->|(d & -> & Hexp & Herr)]; [done|]. by rewrite Hexp, Herr.
  - assert (Hnone : ∃ added : list Home.Message,
              prev = (prev ++ added)%list ∧ (length added ≤ 1)%nat).
    { exists []. split; [by rewrite app_nil_r|simpl; lia]. }
    destruct data as [d|]; [|exact Hnone].
    destruct (truthy (Home.explanation d));
      [eexists [_]; split; [reflexivity|simpl; lia]|].
    destruct (truthy (Home.error d));
      [eexists [_]; split; [reflexivity|simpl; lia]|].
    exact Hnone.
Qed.

Lemma onData_appends_one_message_witness :
  (Home.onData (Some {| Home.explanation := Some "It prints 1.";
                        Home.error := Some "ignored" |}) 7 8 []).2
  = Some ("7", 536).
Proof.
  pose proof (proj1 (onData_appends_one_message
                       (Some {| Home.explanation := Some "It prints 1.";
                                Home.error := Some "ignored" |}) 7 8 [])
                {| Home.explanation := Some "It prints 1."; Home.error := Some "ignored" |}
                "It prints 1." eq_refl eq_refl ltac:(discriminate)) as H.
  rewrite H. reflexivity.
Defined.
